(** * gorm-logged: the logging query-builder facade over gorm

    A shallow embedding of [builder/query.go], [builder/transaction.go] and
    [common] (errors, [GetFrames]).  The ORM ([gorm.DB]), the logger (logrus),
    [reflect], [errors] and [runtime] are external to the repository: the
    engine handle is represented by the sequence of builder calls made on it,
    the engine's answers by an oracle stored in the world, and the standard
    library functions by their documented behaviour on the value model below. *)

From Stdlib Require Import ZArith.
From stdpp Require Import base gmap list strings pretty fin_maps.

Set Warnings "-register-all".
Open Scope string_scope.
Open Scope list_scope.
Open Scope nat_scope.

(** ** Go values passed through [interface{}] parameters *)

(** Dynamic types, as [reflect.TypeOf] reports them. *)
Inductive type : Type :=
  | TBool
  | TInt
  | TString
  | TIface
  | TSlice (elem : type)
  | TPtr (elem : type)
  | TStruct (fields : list (string * type)).

(** A value held in an [interface{}]: [VNil] is the nil interface; a slice is
    [None] when nil and [Some xs] otherwise; a pointer is [None] when nil; a
    struct lists its fields with their declared types. *)
Inductive value : Type :=
  | VNil
  | VBool (b : bool)
  | VInt (n : Z)
  | VStr (s : string)
  | VSlice (elem : type) (xs : option (list value))
  | VPtr (elem : type) (p : option value)
  | VStruct (fields : list (string * type * value)).

(** A variadic parameter [args ...interface{}] is a [[]interface{}] inside the
    callee: nil when the caller passes nothing. *)
Abbreviation goslice := (option (list value)).

Definition len {A} (s : option (list A)) : nat :=
  match s with None => 0 | Some xs => length xs end.

(** The slice seen as one [interface{}] value. *)
Definition slice_value (args : goslice) : value := VSlice TIface args.

Definition strings_value (xs : option (list string)) : value :=
  VSlice TString (fmap (M:=option) (fmap (M:=list) VStr) xs).

Fixpoint type_eqb (a b : type) {struct a} : bool :=
  match a, b with
  | TBool, TBool | TInt, TInt | TString, TString | TIface, TIface => true
  | TSlice x, TSlice y => type_eqb x y
  | TPtr x, TPtr y => type_eqb x y
  | TStruct fs, TStruct gs =>
      (fix fields_eqb (fs : list (string * type)) (gs : list (string * type)) : bool :=
         match fs, gs with
         | [], [] => true
         | f :: fs', g :: gs' =>
             String.eqb (fst f) (fst g) && type_eqb (snd f) (snd g) && fields_eqb fs' gs'
         | _, _ => false
         end) fs gs
  | _, _ => false
  end.

(** [reflect.TypeOf]: nil for the nil interface. *)
Definition reflect_TypeOf (v : value) : option type :=
  match v with
  | VNil => None
  | VBool _ => Some TBool
  | VInt _ => Some TInt
  | VStr _ => Some TString
  | VSlice e _ => Some (TSlice e)
  | VPtr e _ => Some (TPtr e)
  | VStruct fs => Some (TStruct (map (fun f => (fst (fst f), snd (fst f))) fs))
  end.

(** [reflect.Zero(t).Interface()]. *)
Fixpoint reflect_Zero (t : type) : value :=
  match t with
  | TBool => VBool false
  | TInt => VInt 0%Z
  | TString => VStr ""
  | TIface => VNil
  | TSlice e => VSlice e None
  | TPtr e => VPtr e None
  | TStruct fs => VStruct (map (fun f => (fst f, snd f, reflect_Zero (snd f))) fs)
  end.

(** [reflect.DeepEqual] on two interface values: equal dynamic types, then
    kind by kind (slices: same nil-ness, same length, elementwise; pointers:
    both nil or deeply equal targets; structs: fieldwise). *)
Fixpoint reflect_DeepEqual (x y : value) {struct x} : bool :=
  match x, y with
  | VNil, VNil => true
  | VBool a, VBool b => Bool.eqb a b
  | VInt a, VInt b => Z.eqb a b
  | VStr a, VStr b => String.eqb a b
  | VSlice e1 xs, VSlice e2 ys =>
      type_eqb e1 e2 &&
      match xs, ys with
      | None, None => true
      | Some l1, Some l2 =>
          (fix elems_eq (l1 l2 : list value) : bool :=
             match l1, l2 with
             | [], [] => true
             | a :: l1', b :: l2' => reflect_DeepEqual a b && elems_eq l1' l2'
             | _, _ => false
             end) l1 l2
      | _, _ => false
      end
  | VPtr e1 p, VPtr e2 q =>
      type_eqb e1 e2 &&
      match p, q with
      | None, None => true
      | Some a, Some b => reflect_DeepEqual a b
      | _, _ => false
      end
  | VStruct fs, VStruct gs =>
      (fix fields_eq (fs gs : list (string * type * value)) : bool :=
         match fs, gs with
         | [], [] => true
         | f :: fs', g :: gs' =>
             String.eqb (fst (fst f)) (fst (fst g)) &&
             type_eqb (snd (fst f)) (snd (fst g)) &&
             reflect_DeepEqual (snd f) (snd g) && fields_eq fs' gs'
         | _, _ => false
         end) fs gs
  | _, _ => false
  end.

(** ** Errors *)

(** Go error values: the sentinels the code tests for or returns, any other
    leaf error, and wrappers (an error with an [Unwrap] method). Errors that
    bring their own [Is] method or unwrap to several errors are left out. *)
Inductive error : Type :=
  | gorm_ErrRecordNotFound
  | sql_ErrTxDone
  | ErrInternal
  | ErrNotFound
  | ErrOther (msg : string)
  | ErrWrap (msg : string) (inner : error).

Fixpoint error_eqb (a b : error) : bool :=
  match a, b with
  | gorm_ErrRecordNotFound, gorm_ErrRecordNotFound => true
  | sql_ErrTxDone, sql_ErrTxDone => true
  | ErrInternal, ErrInternal => true
  | ErrNotFound, ErrNotFound => true
  | ErrOther s, ErrOther t => String.eqb s t
  | ErrWrap s x, ErrWrap t y => String.eqb s t && error_eqb x y
  | _, _ => false
  end.

(** The unwrap chain walked by [errors.Is]. *)
Fixpoint is_chain (e target : error) : bool :=
  error_eqb e target ||
  match e with
  | ErrWrap _ inner => is_chain inner target
  | _ => false
  end.

(** [errors.Is(err, target)] for a non-nil [target]; [err] may be nil. *)
Definition errors_Is (err : option error) (target : error) : bool :=
  match err with
  | None => false
  | Some e => is_chain e target
  end.

(** ** The engine handle and the statements issued on it *)

(** One builder call on a [*gorm.DB]; the variadic tail is recorded as the
    callee receives it. *)
Inductive call : Type :=
  | EPreload (field : string) (conds : goslice)
  | EDebug
  | EUnscoped
  | EClauses_OnConflict_DoNothing
  | EModel (v : value)
  | ESelect (query : value) (args : goslice)
  | ETable (name : string)
  | ELimit (limit : Z)
  | EOffset (offset : Z)
  | EOrder (v : value)
  | EJoins (query : string) (args : goslice)
  | ESet (name : string) (v : value)
  | EOmit (columns : option (list string))
  | EWhere (query : value) (args : goslice)
  | ENot (query : value) (args : goslice)
  | EGroup (name : string)
  | EHaving (query : value) (args : goslice)
  | ERaw (sql : string) (values : goslice)
  | EBegin.

(** A [*gorm.DB] is represented by the chain of builder calls made to obtain
    it. (Inside gorm a handle that is used again may take later calls into the
    statement it already holds; what is stated below about a handle is the
    calls a facade method makes on the handle its facade holds, in order.) *)
Definition DB := list call.

Definition db_call (c : call) (d : DB) : DB := d ++ [c].

(** The finisher that runs a statement. *)
Inductive finisher : Type :=
  | FPluck (column : string) (dest : value)
  | FFirst (out : value) (conds : goslice)
  | FLast (out : value) (conds : goslice)
  | FTake (dest : value) (conds : goslice)
  | FFind (out : value) (conds : goslice)
  | FScan (dest : value)
  | FCreate (v : value)
  | FSave (v : value)
  | FUpdates (attrs : value)
  | FDelete (v : value) (conds : goslice)
  | FCount
  | FExec (sql : string) (values : goslice)
  | FFindInBatches (dest : value) (batchSize : Z)
  | FCommit
  | FRollback.

Record Stmt := mkStmt { st_db : DB; st_fin : finisher }.

(** What the engine hands back: the [Error] field of the returned handle, and
    for [Count] the number written through the pointer, for [FindInBatches]
    the number of batches it fetches. *)
Record Result := mkResult { r_err : option error; r_count : Z; r_batches : nat }.

(** ** Log records *)

(** [common.Frame], the short form of [runtime.Frame]. *)
Record Frame := mkFrame { Function : string; File : string; Line : Z }.

(** A value stored in a [logrus.Fields] map. [LPretty v] is the string
    [pretty.Print(v)], [LFmt verb v] the string [fmt.Sprintf(verb, v)]. *)
Inductive logval : Type :=
  | LRaw (v : value)
  | LPretty (v : value)
  | LFmt (verb : string) (v : value)
  | LErr (e : error)
  | LFrames (fs : list Frame).

Inductive Level := ErrorLevel | FatalLevel.

Record Entry := mkEntry { e_level : Level; e_msg : string; e_fields : gmap string logval }.

(** ** Heap objects: trace maps and preload slices *)

Definition loc := nat.

(** An element of [Model.preloads]. *)
Record preload := mkPreload { field : string; conditions : goslice }.

Definition zero_preload : preload := mkPreload "" None.

(** A slice header over a backing array of preloads. *)
Record slice := mkSlice { s_arr : loc; s_off : nat; s_len : nat; s_cap : nat }.

Definition nil_slice : slice := mkSlice 0 0 0 0.

(** [Model]: the engine handle, the trace map (a reference, nil when [None])
    and the slice of pending preloads. *)
Record Model := mkModel { db : DB; logTrace : option loc; preloads : slice }.

(** The world a facade method runs in.
    - [maps]: the allocated [logrus.Fields] maps;
    - [arrays]: the backing arrays of preload slices (length = capacity);
    - [spare]: how many extra cells the runtime allots when [append] has to
      grow a slice of the given length (the language only promises that the
      new array is large enough);
    - [engine]: the answer of the engine to a statement, given the statements
      issued before;
    - [callstack]: for each facade method, the goroutine stack as
      [runtime.Callers] sees it when that method calls [common.GetFrames]
      (innermost frame first);
    - [logged]: the records written to the logger, oldest first;
    - [issued]: the statements run by the engine, oldest first. *)
Record World := mkWorld {
  maps : gmap loc (gmap string logval);
  arrays : gmap loc (list preload);
  spare : nat -> nat;
  engine : list Stmt -> Stmt -> Result;
  callstack : string -> list Frame;
  logged : list Entry;
  issued : list Stmt
}.

Definition set_maps (f : gmap loc (gmap string logval) -> gmap loc (gmap string logval))
    (w : World) : World :=
  mkWorld (f (maps w)) (arrays w) (spare w) (engine w) (callstack w) (logged w) (issued w).

Definition set_arrays (f : gmap loc (list preload) -> gmap loc (list preload))
    (w : World) : World :=
  mkWorld (maps w) (f (arrays w)) (spare w) (engine w) (callstack w) (logged w) (issued w).

Definition log_entry (e : Entry) (w : World) : World :=
  mkWorld (maps w) (arrays w) (spare w) (engine w) (callstack w) (logged w ++ [e]) (issued w).

(** Running a statement: the engine answers and the statement is recorded. *)
Definition run_stmt (d : DB) (f : finisher) (w : World) : World * Result :=
  let st := mkStmt d f in
  (mkWorld (maps w) (arrays w) (spare w) (engine w) (callstack w) (logged w) (issued w ++ [st]),
   engine w (issued w) st).

(** The contents of a trace map; a nil map reads as empty. *)
Definition fields_at (w : World) (l : loc) : gmap string logval :=
  default ∅ (maps w !! l).

Definition trace_of (w : World) (t : option loc) : gmap string logval :=
  match t with
  | None => ∅
  | Some l => fields_at w l
  end.

(** [trace[k] = v] *)
Definition trace_set (l : loc) (k : string) (v : logval) (w : World) : World :=
  set_maps (fun ms => <[l := <[k := v]> (fields_at w l)]> ms) w.

Definition array_at (w : World) (a : loc) : list preload :=
  default [] (arrays w !! a).

(** The elements [s[0]], ..., [s[len(s)-1]]. *)
Definition slice_elems (w : World) (s : slice) : list preload :=
  take (s_len s) (drop (s_off s) (array_at w (s_arr s))).

(** [s[i]]; the callers index below [len(s)] only. *)
Definition slice_get (w : World) (s : slice) (i : nat) : preload :=
  default zero_preload (array_at w (s_arr s) !! (s_off s + i)).

(** [s[1:]] *)
Definition slice_from1 (s : slice) : slice :=
  mkSlice (s_arr s) (S (s_off s)) (s_len s - 1) (s_cap s - 1).

(** [append(s, x)]: writes into the spare capacity of the backing array when
    there is some, otherwise copies the elements to a new array. *)
Definition append (s : slice) (x : preload) (w : World) : World * slice :=
  if s_len s <? s_cap s then
    (set_arrays (fun ars => <[s_arr s := <[(s_off s + s_len s) := x]> (array_at w (s_arr s))]> ars) w,
     mkSlice (s_arr s) (s_off s) (S (s_len s)) (s_cap s))
  else
    let a := fresh (dom (arrays w)) in
    let extra := spare w (s_len s) in
    (set_arrays (fun ars => <[a := slice_elems w s ++ x :: replicate extra zero_preload]> ars) w,
     mkSlice a 0 (S (s_len s)) (S (s_len s) + extra)).

(** ** [common.GetFrames] *)

Definition projectName : string := "myProject".

(** [strings.Contains(s, substr)] *)
Fixpoint strings_Contains (s substr : string) : bool :=
  String.prefix substr s ||
  match s with
  | EmptyString => false
  | String _ s' => strings_Contains s' substr
  end.

(** [runtime.Callers(skip, pc)] with [len(pc) = max]: of the goroutine stack
    (innermost first, index 0 being [runtime.Callers] itself and index 1 its
    caller) it records the frames from index [skip] on, at most [max]. *)
Definition runtime_Callers (skip max : nat) (stack : list Frame) : list Frame :=
  take max (drop skip stack).

(** The loop over [frames.Next()]: it leaves at the first frame whose function
    name does not contain the project name, or after the last frame. *)
Fixpoint frames_loop (frames res : list Frame) : list Frame :=
  match frames with
  | [] => res
  | frameCandidate :: more =>
      if negb (strings_Contains (Function frameCandidate) projectName) then res
      else frames_loop more (res ++ [mkFrame (Function frameCandidate)
                                             (File frameCandidate)
                                             (Line frameCandidate)])
  end.

(** [GetFrames()], run on the goroutine stack that [runtime.Callers] sees:
    [stack !! 0] is [runtime.Callers], [stack !! 1] is [GetFrames] itself and
    [stack !! 2] the function that called [GetFrames]. *)
Definition GetFrames (stack : list Frame) : list Frame :=
  let pcs := runtime_Callers 2 99 stack in
  let n := length pcs in
  if 0 <? n then frames_loop pcs [] else [].

(** ** logrus entries *)

Definition WithError (err : error) : gmap string logval := {[ "error" := LErr err ]}.

(** [entry.WithFields(fields)]: the new fields win over the ones already set. *)
Definition WithFields (fields entry : gmap string logval) : gmap string logval :=
  fields ∪ entry.

Definition logrus_Error (entry : gmap string logval) (msg : string) (w : World) : World :=
  log_entry (mkEntry ErrorLevel msg entry) w.

(** ** Configuration methods *)

(** [initLogTrace]: a nil map is replaced by a freshly made one, a non-nil map
    is returned as it is (the same object). *)
Definition initLogTrace (trace : option loc) (w : World) : World * loc :=
  match trace with
  | None =>
      let l := fresh (dom (maps w)) in
      (set_maps (fun ms => <[l := ∅]> ms) w, l)
  | Some l => (w, l)
  end.

(** [strconv.Itoa] on the loop counter, which starts at 0 and only grows. *)
Definition strconv_Itoa (i : nat) : string := pretty i.

Example strconv_Itoa_sample : map strconv_Itoa [0; 7; 10; 123] = ["0"; "7"; "10"; "123"].
Proof. reflexivity. Qed.

(** [for { if _, ok := trace[prefix+strconv.Itoa(i)]; !ok { break }; i++ }].
    The map is finite, so the loop leaves within [size trace + 1] rounds
    ([scan_unused_spec]). *)
Fixpoint scan_unused (trace : gmap string logval) (prefix : string) (fuel i : nat) : nat :=
  match fuel with
  | 0 => i
  | S fuel' =>
      match trace !! (prefix +:+ strconv_Itoa i) with
      | None => i
      | Some _ => scan_unused trace prefix fuel' (S i)
      end
  end.

Definition first_unused (w : World) (trace : loc) (prefix : string) : nat :=
  scan_unused (fields_at w trace) prefix (S (size (fields_at w trace))) 0.

Definition Preload (m : Model) (column : string) (conds : goslice) (w : World) : World * Model :=
  let '(w, trace) := initLogTrace (logTrace m) w in
  let w := trace_set trace ("preloadColumn-" +:+ column) (LRaw (VStr column)) w in
  let w := if 0 <? len conds
           then trace_set trace ("preloadConditions-" +:+ column) (LRaw (slice_value conds)) w
           else w in
  let '(w, ps) := append (preloads m) (mkPreload column conds) w in
  (w, mkModel (db m) (Some trace) ps).

(** [applyPreloads]: the recursion is on [len(m.preloads)], which is the fuel. *)
Fixpoint applyPreloads_rec (fuel : nat) (m : Model) (w : World) : World * Model :=
  match fuel with
  | 0 => (w, mkModel (db m) (logTrace m) nil_slice)
  | S fuel' =>
      if 0 <? s_len (preloads m) then
        let p := slice_get w (preloads m) 0 in
        let m' := mkModel (db_call (EPreload (field p) (conditions p)) (db m))
                          (logTrace m)
                          (slice_from1 (preloads m)) in
        applyPreloads_rec fuel' m' w
      else (w, mkModel (db m) (logTrace m) nil_slice)
  end.

Definition applyPreloads (m : Model) (w : World) : World * Model :=
  applyPreloads_rec (S (s_len (preloads m))) m w.

Definition Debug (m : Model) (w : World) : World * Model :=
  (w, mkModel (db_call EDebug (db m)) (logTrace m) (preloads m)).

Definition Unscoped (m : Model) (w : World) : World * Model :=
  let '(w, trace) := initLogTrace (logTrace m) w in
  let w := trace_set trace "unscoped" (LRaw (VBool true)) w in
  (w, mkModel (db_call EUnscoped (db m)) (logTrace m) (preloads m)).

Definition Model_ (m : Model) (v : value) (w : World) : World * Model :=
  let '(w, trace) := initLogTrace (logTrace m) w in
  let w := trace_set trace "model" (LPretty v) w in
  (w, mkModel (db_call (EModel v) (db m)) (Some trace) (preloads m)).

Definition Select (m : Model) (query : value) (args : goslice) (w : World) : World * Model :=
  let '(w, trace) := initLogTrace (logTrace m) w in
  let w := trace_set trace "selectQuery" (LRaw query) w in
  let w := if 0 <? len args
           then trace_set trace "selectArgs" (LPretty (slice_value args)) w
           else w in
  (w, mkModel (db_call (ESelect query args) (db m)) (Some trace) (preloads m)).

Definition Table (m : Model) (name : string) (w : World) : World * Model :=
  let '(w, trace) := initLogTrace (logTrace m) w in
  let w := trace_set trace "tableName" (LRaw (VStr name)) w in
  (w, mkModel (db_call (ETable name) (db m)) (Some trace) (preloads m)).

Definition Limit (m : Model) (limit : Z) (w : World) : World * Model :=
  let '(w, trace) := initLogTrace (logTrace m) w in
  let w := trace_set trace "limit" (LRaw (VInt limit)) w in
  (w, mkModel (db_call (ELimit limit) (db m)) (Some trace) (preloads m)).

Definition Offset (m : Model) (offset : Z) (w : World) : World * Model :=
  let '(w, trace) := initLogTrace (logTrace m) w in
  let w := trace_set trace "offset" (LRaw (VInt offset)) w in
  (w, mkModel (db_call (EOffset offset) (db m)) (Some trace) (preloads m)).

Definition Order (m : Model) (v : value) (w : World) : World * Model :=
  let '(w, trace) := initLogTrace (logTrace m) w in
  let w := trace_set trace "order" (LPretty v) w in
  (w, mkModel (db_call (EOrder v) (db m)) (Some trace) (preloads m)).

(** [Joins] hands [args] to the engine as one argument: [m.db.Joins(query, args)],
    so the engine's own variadic parameter is the one-element slice holding
    [args]. *)
Definition Joins (m : Model) (query : string) (args : goslice) (w : World) : World * Model :=
  let '(w, trace) := initLogTrace (logTrace m) w in
  let i := first_unused w trace "joinsQuery" in
  let w := trace_set trace ("joinsQuery" +:+ strconv_Itoa i) (LRaw (VStr query)) w in
  let w := if 0 <? len args
           then trace_set trace ("joinsArgs" +:+ strconv_Itoa i) (LPretty (slice_value args)) w
           else w in
  (w, mkModel (db_call (EJoins query (Some [slice_value args])) (db m)) (Some trace) (preloads m)).

Definition Set_ (m : Model) (name : string) (v : value) (w : World) : World * Model :=
  let '(w, trace) := initLogTrace (logTrace m) w in
  let i := first_unused w trace "setName" in
  let w := trace_set trace ("setName" +:+ strconv_Itoa i) (LRaw (VStr name)) w in
  let w := trace_set trace ("setValue" +:+ strconv_Itoa i) (LRaw v) w in
  (w, mkModel (db_call (ESet name v) (db m)) (Some trace) (preloads m)).

Definition IgnoreConflicts (m : Model) (w : World) : World * Model :=
  let '(w, trace) := initLogTrace (logTrace m) w in
  let w := trace_set trace "ignoreConflicts" (LRaw (VBool true)) w in
  (w, mkModel (db_call EClauses_OnConflict_DoNothing (db m)) (Some trace) (preloads m)).

Definition Omit (m : Model) (columns : option (list string)) (w : World) : World * Model :=
  let '(w, trace) := initLogTrace (logTrace m) w in
  let w := trace_set trace "omit" (LRaw (strings_value columns)) w in
  (w, mkModel (db_call (EOmit columns) (db m)) (Some trace) (preloads m)).

Definition Where (m : Model) (query : value) (args : goslice) (w : World) : World * Model :=
  let '(w, trace) := initLogTrace (logTrace m) w in
  let i := first_unused w trace "whereQuery" in
  let w := trace_set trace ("whereQuery" +:+ strconv_Itoa i) (LPretty query) w in
  let w := if 0 <? len args
           then trace_set trace ("whereArgs" +:+ strconv_Itoa i) (LPretty (slice_value args)) w
           else w in
  (w, mkModel (db_call (EWhere query args) (db m)) (Some trace) (preloads m)).

Definition Not (m : Model) (query : value) (args : goslice) (w : World) : World * Model :=
  let '(w, trace) := initLogTrace (logTrace m) w in
  let w := trace_set trace "notQuery" (LPretty query) w in
  let w := if 0 <? len args
           then trace_set trace "notArgs" (LRaw (slice_value args)) w
           else w in
  (w, mkModel (db_call (ENot query args) (db m)) (Some trace) (preloads m)).

Definition Group (m : Model) (name : string) (w : World) : World * Model :=
  let '(w, trace) := initLogTrace (logTrace m) w in
  let w := trace_set trace "groupName" (LRaw (VStr name)) w in
  (w, mkModel (db_call (EGroup name) (db m)) (Some trace) (preloads m)).

Definition Having (m : Model) (query : value) (args : goslice) (w : World) : World * Model :=
  let '(w, trace) := initLogTrace (logTrace m) w in
  let w := trace_set trace "havingQuery" (LRaw query) w in
  let w := if 0 <? len args
           then trace_set trace "havingArgs" (LRaw (slice_value args)) w
           else w in
  (w, mkModel (db_call (EHaving query args) (db m)) (Some trace) (preloads m)).

Definition raw (m : Model) (sql : string) (values : goslice) (w : World) : World * Model :=
  let '(w, trace) := initLogTrace (logTrace m) w in
  let w := trace_set trace "rawSql" (LRaw (VStr sql)) w in
  let w := if 0 <? len values
           then trace_set trace "rawValues" (LRaw (slice_value values)) w
           else w in
  (w, mkModel (db_call (ERaw sql values) (db m)) (Some trace) (preloads m)).

(** ** Terminal operations *)

(** The record written on a failed call:
    [logrus.WithError(err).WithFields(m.logTrace).WithFields(logFields).Error(msg)]. *)
Definition log_failure (m : Model) (err : error) (logFields : gmap string logval)
    (msg : string) (w : World) : World :=
  logrus_Error (WithFields logFields (WithFields (trace_of w (logTrace m)) (WithError err))) msg w.

Definition Pluck (m : Model) (column : string) (v : value) (w : World) : World * option error :=
  let '(w, q) := applyPreloads m w in
  let '(w, r) := run_stmt (db q) (FPluck column v) w in
  match r_err r with
  | Some err =>
      (log_failure m err
         {[ "typeOfPluckingValue" := LFmt "%T" v;
            "pluckColumnName" := LRaw (VStr column);
            "trace" := LFrames (GetFrames (callstack w "Pluck")) ]}
         "can't pluck object from the database" w,
       Some ErrInternal)
  | None => (w, None)
  end.

Definition First (m : Model) (out : value) (conds : goslice) (w : World) : World * option error :=
  let '(w, q) := applyPreloads m w in
  let '(w, r) := run_stmt (db q) (FFirst out conds) w in
  if errors_Is (r_err r) gorm_ErrRecordNotFound then (w, Some ErrNotFound)
  else
    match r_err r with
    | Some err =>
        let logFields : gmap string logval :=
          {[ "trace" := LFrames (GetFrames (callstack w "First"));
             "firstOut" := LPretty out ]} in
        let logFields :=
          if 0 <? len conds then <["firstWhere" := LPretty (slice_value conds)]> logFields
          else logFields in
        (log_failure m err logFields "can't get first object from the database" w,
         Some ErrInternal)
    | None => (w, None)
    end.

Definition Last (m : Model) (out : value) (conds : goslice) (w : World) : World * option error :=
  let '(w, q) := applyPreloads m w in
  let '(w, r) := run_stmt (db q) (FLast out conds) w in
  if errors_Is (r_err r) gorm_ErrRecordNotFound then (w, Some ErrNotFound)
  else
    match r_err r with
    | Some err =>
        let logFields : gmap string logval :=
          {[ "trace" := LFrames (GetFrames (callstack w "Last"));
             "lastOut" := LPretty out ]} in
        let logFields :=
          if 0 <? len conds then <["lastWhere" := LPretty (slice_value conds)]> logFields
          else logFields in
        (log_failure m err logFields "can't get last object from the database" w,
         Some ErrInternal)
    | None => (w, None)
    end.

Definition Take (m : Model) (dest : value) (conds : goslice) (w : World) : World * option error :=
  let '(w, q) := applyPreloads m w in
  let '(w, r) := run_stmt (db q) (FTake dest conds) w in
  if errors_Is (r_err r) gorm_ErrRecordNotFound then (w, Some ErrNotFound)
  else
    match r_err r with
    | Some err =>
        let logFields : gmap string logval :=
          {[ "takeWhereCondition" := LFmt "%+v" (slice_value conds);
             "takeDest" := LPretty dest;
             "trace" := LFrames (GetFrames (callstack w "Take")) ]} in
        let logFields :=
          if 0 <? len conds then <["takeConds" := LPretty (slice_value conds)]> logFields
          else logFields in
        (log_failure m err logFields "can't take object from the database" w,
         Some ErrInternal)
    | None => (w, None)
    end.

Definition Find (m : Model) (out : value) (conds : goslice) (w : World) : World * option error :=
  let '(w, q) := applyPreloads m w in
  let '(w, r) := run_stmt (db q) (FFind out conds) w in
  match r_err r with
  | Some err =>
      let logFields : gmap string logval :=
        {[ "findOut" := LPretty out;
           "trace" := LFrames (GetFrames (callstack w "Find")) ]} in
      let logFields :=
        if 0 <? len conds then <["findWhere" := LPretty (slice_value conds)]> logFields
        else logFields in
      (log_failure m err logFields "can't find from the database" w, Some ErrInternal)
  | None => (w, None)
  end.

Definition Scan (m : Model) (dest : value) (w : World) : World * option error :=
  let '(w, q) := applyPreloads m w in
  let '(w, r) := run_stmt (db q) (FScan dest) w in
  match r_err r with
  | Some err =>
      (log_failure m err
         {[ "scanDest" := LPretty dest;
            "trace" := LFrames (GetFrames (callstack w "Scan")) ]}
         "can't scan from the database" w,
       Some ErrInternal)
  | None => (w, None)
  end.

Definition Create (m : Model) (v : value) (w : World) : World * option error :=
  let '(w, q) := applyPreloads m w in
  let '(w, r) := run_stmt (db q) (FCreate v) w in
  match r_err r with
  | Some err =>
      (log_failure m err
         {[ "createValue" := LPretty v;
            "trace" := LFrames (GetFrames (callstack w "Create")) ]}
         "can't create value in database" w,
       Some ErrInternal)
  | None => (w, None)
  end.

Definition Save (m : Model) (v : value) (w : World) : World * option error :=
  let '(w, q) := applyPreloads m w in
  let '(w, r) := run_stmt (db q) (FSave v) w in
  match r_err r with
  | Some err =>
      (log_failure m err
         {[ "saveValue" := LPretty v;
            "trace" := LFrames (GetFrames (callstack w "Save")) ]}
         "can't save object in a database" w,
       Some ErrInternal)
  | None => (w, None)
  end.

Definition Updates (m : Model) (attrs : value) (w : World) : World * option error :=
  let '(w, q) := applyPreloads m w in
  let '(w, r) := run_stmt (db q) (FUpdates attrs) w in
  match r_err r with
  | Some err =>
      (log_failure m err
         {[ "updateAttrs" := LPretty attrs;
            "trace" := LFrames (GetFrames (callstack w "Updates")) ]}
         "can't update object in database" w,
       Some ErrInternal)
  | None => (w, None)
  end.

Definition Delete (m : Model) (v : value) (conds : goslice) (w : World) : World * option error :=
  let '(w, q) := applyPreloads m w in
  let '(w, r) := run_stmt (db q) (FDelete v conds) w in
  match r_err r with
  | Some err =>
      let logFields : gmap string logval :=
        {[ "deleteValue" := LPretty v;
           "trace" := LFrames (GetFrames (callstack w "Delete")) ]} in
      let logFields :=
        if 0 <? len conds then <["deleteWhere" := LPretty (slice_value conds)]> logFields
        else logFields in
      (log_failure m err logFields "can't delete object from DB" w, Some ErrInternal)
  | None => (w, None)
  end.

(** [Count] runs on [m.db] as it is: the pending preloads are not applied. *)
Definition Count (m : Model) (w : World) : World * (Z * option error) :=
  let '(w, r) := run_stmt (db m) FCount w in
  match r_err r with
  | Some err =>
      (log_failure m err
         {[ "trace" := LFrames (GetFrames (callstack w "Count")) ]}
         "can't count objects in DB" w,
       (0%Z, Some ErrInternal))
  | None => (w, (r_count r, None))
  end.

Definition exec (m : Model) (sql : string) (values : goslice) (w : World) : World * option error :=
  let '(w, q) := applyPreloads m w in
  let '(w, r) := run_stmt (db q) (FExec sql values) w in
  match r_err r with
  | Some err =>
      (log_failure m err
         {[ "trace" := LFrames (GetFrames (callstack w "exec"));
            "execSql" := LRaw (VStr sql);
            "execValues" := LRaw (slice_value values) ]}
         "can't exec sql in DB" w,
       Some ErrInternal)
  | None => (w, None)
  end.

(** The engine's [FindInBatches]: it runs the statement, calls the function it
    was given once per fetched batch (numbered from 1) and stops at the first
    error, which becomes the [Error] of the handle it returns. *)
Fixpoint run_batches (fc : Z -> World -> World * option error) (n : nat) (batch : Z)
    (w : World) : World * option error :=
  match n with
  | 0 => (w, None)
  | S n' =>
      let '(w, e) := fc batch w in
      match e with
      | Some _ => (w, e)
      | None => run_batches fc n' (batch + 1)%Z w
      end
  end.

Definition gorm_FindInBatches (d : DB) (dest : value) (batchSize : Z)
    (fc : Z -> World -> World * option error) (w : World) : World * option error :=
  let '(w, r) := run_stmt d (FFindInBatches dest batchSize) w in
  let '(w, e) := run_batches fc (r_batches r) 1%Z w in
  (w, match e with Some _ => e | None => r_err r end).

(** [BatchFind]: the function handed to the engine calls back with [m], the
    facade the method was called on. *)
Definition BatchFind (m : Model) (dest : value) (batchSize : Z)
    (fc : Model -> Z -> World -> World * option error) (w : World) : World * option error :=
  let '(w, q) := applyPreloads m w in
  let '(w, e) := gorm_FindInBatches (db q) dest batchSize (fun batch => fc m batch) w in
  match e with
  | Some err =>
      let logFields : gmap string logval :=
        {[ "batchFindDest" := LPretty dest;
           "batchSize" := LRaw (VInt batchSize);
           "trace" := LFrames (GetFrames (callstack w "BatchFind")) ]} in
      (log_failure m err logFields "can't find from the database" w, Some ErrInternal)
  | None => (w, None)
  end.

(** A call either returns or panics. *)
Inductive outcome : Type :=
  | Returned (err : option error)
  | Panicked (msg : string).

(** [UpdateByFilter]. [reflect.Zero] panics on the nil type, which is what
    [reflect.TypeOf] gives for a nil [filter]. *)
Definition UpdateByFilter (m : Model) (filter values : value) (w : World) : World * outcome :=
  match reflect_TypeOf filter with
  | None => (w, Panicked "reflect: Zero(nil)")
  | Some t =>
      if reflect_DeepEqual filter (reflect_Zero t) then
        (logrus_Error ∅ "queryBuilder.UpdateByFilter called for empty filter" w,
         Returned (Some ErrInternal))
      else
        let '(w, q) := applyPreloads m w in
        let '(w, r) := run_stmt (db_call (EWhere filter None) (db_call (EModel filter) (db q)))
                                (FUpdates values) w in
        match r_err r with
        | Some err =>
            (log_failure m err
               {[ "UpdateByFilterFilter" := LPretty filter;
                  "UpdateByFilterValues" := LPretty values;
                  "trace" := LFrames (GetFrames (callstack w "UpdateByFilter")) ]}
               "can't update object in database" w,
             Returned (Some ErrInternal))
        | None => (w, Returned None)
        end
  end.

(** ** Transactions *)

Definition Begin (m : Model) (w : World) : World * Model :=
  (w, mkModel (db_call EBegin (db m)) None nil_slice).

Definition Commit (m : Model) (w : World) : World * option error :=
  let '(w, r) := run_stmt (db m) FCommit w in
  match r_err r with
  | Some err => (logrus_Error (WithError err) "can't commit transaction" w, Some ErrInternal)
  | None => (w, None)
  end.

(** The [err] tested and logged inside the [if] is the rollback's; the one
    returned is the parameter. *)
Definition RollbackWithError (m : Model) (err : option error) (w : World) : World * option error :=
  let '(w, r) := run_stmt (db m) FRollback w in
  let w := match r_err r with
           | Some err => logrus_Error (WithError err) "can't rollback transaction" w
           | None => w
           end in
  (w, err).

Definition RollBack (m : Model) (w : World) : World :=
  let '(w, r) := run_stmt (db m) FRollback w in
  match r_err r with
  | None => w
  | Some err =>
      if errors_Is (Some err) sql_ErrTxDone then w
      else logrus_Error (WithError err) "can't rollback transaction" w
  end.

(** ** The [QueryBuilder] interface as data *)

(** A configuration call with its arguments. *)
Inductive config : Type :=
  | CPreload (column : string) (conds : goslice)
  | CDebug
  | CUnscoped
  | CIgnoreConflicts
  | CModel (v : value)
  | CSelect (query : value) (args : goslice)
  | CTable (name : string)
  | CLimit (limit : Z)
  | COffset (offset : Z)
  | COrder (v : value)
  | CSet (name : string) (v : value)
  | COmit (columns : option (list string))
  | CWhere (query : value) (args : goslice)
  | CNot (query : value) (args : goslice)
  | CGroup (name : string)
  | CHaving (query : value) (args : goslice)
  | CJoins (query : string) (args : goslice)
  | CRaw (sql : string) (values : goslice).

Definition configure (c : config) (m : Model) (w : World) : World * Model :=
  match c with
  | CPreload column conds => Preload m column conds w
  | CDebug => Debug m w
  | CUnscoped => Unscoped m w
  | CIgnoreConflicts => IgnoreConflicts m w
  | CModel v => Model_ m v w
  | CSelect query args => Select m query args w
  | CTable name => Table m name w
  | CLimit limit => Limit m limit w
  | COffset offset => Offset m offset w
  | COrder v => Order m v w
  | CSet name v => Set_ m name v w
  | COmit columns => Omit m columns w
  | CWhere query args => Where m query args w
  | CNot query args => Not m query args w
  | CGroup name => Group m name w
  | CHaving query args => Having m query args w
  | CJoins query args => Joins m query args w
  | CRaw sql values => raw m sql values w
  end.

(** A chain [m.c1(...).c2(...)...]: each call is made on the facade the
    previous one returned. *)
Fixpoint chain (cs : list config) (m : Model) (w : World) : World * Model :=
  match cs with
  | [] => (w, m)
  | c :: cs' => let '(w, m) := configure c m w in chain cs' m w
  end.

(** A terminal call that hands one statement to the engine ([BatchFind], whose
    engine call runs a callback, is treated on its own). *)
Inductive terminal : Type :=
  | OpPluck (column : string) (v : value)
  | OpFirst (out : value) (conds : goslice)
  | OpLast (out : value) (conds : goslice)
  | OpTake (dest : value) (conds : goslice)
  | OpFind (out : value) (conds : goslice)
  | OpScan (dest : value)
  | OpCreate (v : value)
  | OpSave (v : value)
  | OpUpdates (attrs : value)
  | OpDelete (v : value) (conds : goslice)
  | OpCount
  | OpExec (sql : string) (values : goslice)
  | OpUpdateByFilter (filter values : value).

Definition returned (r : World * option error) : World * outcome :=
  (fst r, Returned (snd r)).

(** The error result of a terminal call (the number [Count] returns besides
    is dropped here). *)
Definition terminate (op : terminal) (m : Model) (w : World) : World * outcome :=
  match op with
  | OpPluck column v => returned (Pluck m column v w)
  | OpFirst out conds => returned (First m out conds w)
  | OpLast out conds => returned (Last m out conds w)
  | OpTake dest conds => returned (Take m dest conds w)
  | OpFind out conds => returned (Find m out conds w)
  | OpScan dest => returned (Scan m dest w)
  | OpCreate v => returned (Create m v w)
  | OpSave v => returned (Save m v w)
  | OpUpdates attrs => returned (Updates m attrs w)
  | OpDelete v conds => returned (Delete m v conds w)
  | OpCount => let '(w, (_, err)) := Count m w in (w, Returned err)
  | OpExec sql values => returned (exec m sql values w)
  | OpUpdateByFilter filter values => UpdateByFilter m filter values w
  end.

(** ** A sample world and facade *)

(** The doubling policy of the Go runtime for small slices: growing a full
    slice of [n] elements gives capacity [2n] (1 when [n = 0]). *)
Definition doubling (n : nat) : nat := n - 1.

Definition world0 (answer : Result) : World :=
  mkWorld ∅ ∅ doubling (fun _ _ => answer) (fun _ => []) [] [].

Definition ok_result : Result := mkResult None 0%Z 0.

(** The facade [New] returns: a connection handle, no trace map, no preloads. *)
Definition root : Model := mkModel [] None nil_slice.

Example chain_trace_sample :
  let '(w, m) := chain [CWhere (VStr "a = ?") (Some [VInt 1%Z]); CPreload "Owner" None;
                        CWhere (VStr "b") None; CLimit 10%Z] root (world0 ok_result) in
  slice_elems w (preloads m) = [mkPreload "Owner" None] /\
  trace_of w (logTrace m) !! "whereQuery1" = Some (LPretty (VStr "b")) /\
  trace_of w (logTrace m) !! "whereQuery0" = Some (LPretty (VStr "a = ?")) /\
  trace_of w (logTrace m) !! "whereQuery2" = None /\
  db m = [EWhere (VStr "a = ?") (Some [VInt 1%Z]); EWhere (VStr "b") None; ELimit 10%Z].
Proof. vm_compute. auto. Qed.

(** * Properties *)

(** ** [reflect]: deep equality with the zero value *)

Section nested_induction.
Variable P : type -> Prop.
Hypothesis HBool : P TBool.
Hypothesis HInt : P TInt.
Hypothesis HString : P TString.
Hypothesis HIface : P TIface.
Hypothesis HSlice : forall e, P e -> P (TSlice e).
Hypothesis HPtr : forall e, P e -> P (TPtr e).
Hypothesis HStruct : forall fs, Forall (fun f => P (snd f)) fs -> P (TStruct fs).

Fixpoint type_nested_ind (t : type) : P t :=
    match t with
    | TBool => HBool
    | TInt => HInt
    | TString => HString
    | TIface => HIface
    | TSlice e => HSlice e (type_nested_ind e)
    | TPtr e => HPtr e (type_nested_ind e)
    | TStruct fs =>
        HStruct fs
          ((fix go (fs : list (string * type)) : Forall (fun f => P (snd f)) fs :=
              match fs with
              | [] => @List.Forall_nil _ _
              | f :: fs' => @List.Forall_cons _ _ f fs' (type_nested_ind (snd f)) (go fs')
              end) fs)
    end.
End nested_induction.

Section value_nested_induction.
Variable P : value -> Prop.
Hypothesis HNil : P VNil.
Hypothesis HBool : forall b, P (VBool b).
Hypothesis HInt : forall n, P (VInt n).
Hypothesis HStr : forall s, P (VStr s).
Hypothesis HSlice : forall e xs, (forall l, xs = Some l -> Forall P l) -> P (VSlice e xs).
Hypothesis HPtr : forall e p, (forall v, p = Some v -> P v) -> P (VPtr e p).
Hypothesis HStruct : forall fs, Forall (fun f => P (snd f)) fs -> P (VStruct fs).

Fixpoint value_nested_ind (v : value) : P v :=
    match v with
    | VNil => HNil
    | VBool b => HBool b
    | VInt n => HInt n
    | VStr s => HStr s
    | VSlice e xs =>
        HSlice e xs
          (match xs return forall l, xs = Some l -> Forall P l with
           | None => fun l H => match H in _ = y return match y with None => True | Some _ => Forall P l end with eq_refl => I end
           | Some l0 => fun l H =>
               match H in _ = y return match y with None => True | Some l' => Forall P l' end with
               | eq_refl =>
                   (fix go (l : list value) : Forall P l :=
                      match l with
                      | [] => @List.Forall_nil _ _
                      | a :: l' => @List.Forall_cons _ _ a l' (value_nested_ind a) (go l')
                      end) l0
               end
           end)
    | VPtr e p =>
        HPtr e p
          (match p return forall v, p = Some v -> P v with
           | None => fun v H => match H in _ = y return match y with None => True | Some _ => P v end with eq_refl => I end
           | Some v0 => fun v H =>
               match H in _ = y return match y with None => True | Some v' => P v' end with
               | eq_refl => value_nested_ind v0
               end
           end)
    | VStruct fs =>
        HStruct fs
          ((fix go (fs : list (string * type * value)) : Forall (fun f => P (snd f)) fs :=
              match fs with
              | [] => @List.Forall_nil _ _
              | f :: fs' => @List.Forall_cons _ _ f fs' (value_nested_ind (snd f)) (go fs')
              end) fs)
    end.
End value_nested_induction.

Lemma string_eqb_true (s t : string) : String.eqb s t = true <-> s = t.
Proof. apply String.eqb_eq. Qed.

Lemma type_eqb_eq (a b : type) : type_eqb a b = true <-> a = b.
Proof.
  revert b. induction a using type_nested_ind; intros b; destruct b; simpl;
    try (split; [done | congruence]); try (split; done).
  - rewrite IHa. split; congruence.
  - rewrite IHa. split; congruence.
  - revert fields. induction H as [|f fs Hf Hfs IH]; intros [|g gs]; simpl;
      try (split; [done | congruence]); try (split; done).
    rewrite !andb_true_iff, string_eqb_true, Hf, IH.
    destruct f, g; simpl. split.
    + intros [[-> ->] Heq]. by inversion Heq.
    + intros Heq. by inversion Heq.
Qed.

Lemma reflect_DeepEqual_eq (x y : value) : reflect_DeepEqual x y = true <-> x = y.
Proof.
  revert y. induction x using value_nested_ind; intros y; destruct y; simpl;
    try (split; [done | congruence]); try (split; done).
  - rewrite Bool.eqb_true_iff. split; congruence.
  - rewrite Z.eqb_eq. split; congruence.
  - rewrite string_eqb_true. split; congruence.
  - rewrite andb_true_iff, type_eqb_eq.
    destruct xs as [l1|], xs0 as [l2|]; try (split; [intros [_ ?]; done | congruence]).
    + specialize (H l1 eq_refl).
      assert (Hl : (fix elems_eq (l1 l2 : list value) {struct l1} : bool :=
                      match l1 with
                      | [] => match l2 with [] => true | _ :: _ => false end
                      | a :: l1' =>
                          match l2 with
                          | [] => false
                          | b :: l2' => reflect_DeepEqual a b && elems_eq l1' l2'
                          end
                      end) l1 l2 = true <-> l1 = l2).
      { revert l2. induction H as [|a l1 Ha Hl1 IH]; intros [|b l2];
          try (split; [done | congruence]); try (split; done).
        rewrite andb_true_iff, Ha, IH. split; [intros [-> ->]; done | intros Heq; by inversion Heq]. }
      rewrite Hl. split; [intros [-> ->]; done | intros Heq; by inversion Heq].
    + split; [intros [-> _]; done | intros Heq; by inversion Heq].
  - rewrite andb_true_iff, type_eqb_eq.
    destruct p as [a|], p0 as [b|]; try (split; [intros [_ ?]; done | congruence]).
    + rewrite (H a eq_refl). split; [intros [-> ->]; done | intros Heq; by inversion Heq].
    + split; [intros [-> _]; done | intros Heq; by inversion Heq].
  - revert fields. induction H as [|f fs Hf Hfs IH]; intros [|g gs];
      try (split; [done | congruence]); try (split; done).
    rewrite !andb_true_iff, string_eqb_true, type_eqb_eq, Hf, IH.
    destruct f as [[? ?] ?], g as [[? ?] ?]; simpl. split.
    + intros [[[-> ->] ->] Heq]. by inversion Heq.
    + intros Heq. by inversion Heq.
Qed.

(** ** Transactions *)

Definition rollback_stmt (m : Model) : Stmt := mkStmt (db m) FRollback.

Definition rollback_entry (e : error) : Entry :=
  mkEntry ErrorLevel "can't rollback transaction" (WithError e).

(** C7. [RollbackWithError(err)] returns [err] itself, nil included, whatever
    the engine answers to the rollback; a failed rollback only adds one record
    to the log. *)
Theorem RollbackWithError_returns_argument (m : Model) (err : option error) (w : World) :
  (RollbackWithError m err w).2 = err /\
  issued (RollbackWithError m err w).1 = issued w ++ [rollback_stmt m] /\
  logged (RollbackWithError m err w).1 =
    match r_err (engine w (issued w) (rollback_stmt m)) with
    | None => logged w
    | Some e => logged w ++ [rollback_entry e]
    end.
Proof.
  unfold RollbackWithError, rollback_stmt, run_stmt; simpl.
  destruct (r_err _); auto.
Qed.

(** C8. [RollBack()] writes nothing to the log when the rollback succeeds or
    fails with (a wrapper of) [sql.ErrTxDone], and exactly one error record
    for any other failure; it has no result. *)
Theorem RollBack_log (m : Model) (w : World) :
  issued (RollBack m w) = issued w ++ [rollback_stmt m] /\
  logged (RollBack m w) =
    match r_err (engine w (issued w) (rollback_stmt m)) with
    | None => logged w
    | Some e =>
        if errors_Is (Some e) sql_ErrTxDone then logged w
        else logged w ++ [rollback_entry e]
    end.
Proof.
  unfold RollBack, rollback_stmt, run_stmt; simpl.
  destruct (r_err _) as [e|]; auto.
  destruct (is_chain e sql_ErrTxDone); auto.
Qed.

(** ** [Joins] and the variadic tail *)

Lemma value_not_its_own_element (v : value) (e : type) : v <> VSlice e (Some [v]).
Proof.
  revert e. induction v using value_nested_ind; intros e0; try discriminate.
  intros Heq. pose proof Heq as Heq'. injection Heq' as _ Hxs.
  specialize (H _ Hxs). inversion H as [|? ? Hv _]. by apply (Hv e0).
Qed.

(** ** [GetFrames] *)

Definition in_project (f : Frame) : bool := strings_Contains (Function f) projectName.

Lemma frames_loop_acc (frames res : list Frame) :
  frames_loop frames res = res ++ frames_loop frames [].
Proof.
  revert res. induction frames as [|f frames IH]; intros res; simpl.
  - by rewrite app_nil_r.
  - destruct (strings_Contains _ _); simpl.
    + rewrite (IH (res ++ _)), (IH [_]). by rewrite <- app_assoc.
    + by rewrite app_nil_r.
Qed.

Lemma frames_loop_prefix (frames : list Frame) :
  exists rest, frames = frames_loop frames [] ++ rest /\
    Forall (fun f => in_project f = true) (frames_loop frames []) /\
    match rest with
    | [] => True
    | f :: _ => in_project f = false
    end.
Proof.
  induction frames as [|f frames (rest & Heq & Hall & Hrest)]; simpl.
  - exists []. repeat split; constructor.
  - destruct (strings_Contains (Function f) projectName) eqn:Hf; simpl.
    + exists rest. rewrite frames_loop_acc. destruct f as [fn fl ln]; simpl in *.
      repeat split; [by f_equal | by constructor | done].
    + exists (f :: frames). repeat split; [constructor | done].
Qed.

(** C9, as the code has it. The frames [GetFrames] looks at are those recorded
    by [runtime.Callers(2, pc)] with 99 slots: the stack from the caller of
    [GetFrames] on ([runtime.Callers] and [GetFrames] itself are skipped), at
    most 99 frames. It returns the longest prefix of these whose function
    names contain the project name: every returned frame is in the project,
    and the frame after the last returned one, if recorded, is not. *)
Theorem GetFrames_project_prefix (stack : list Frame) :
  exists rest, take 99 (drop 2 stack) = GetFrames stack ++ rest /\
    Forall (fun f => in_project f = true) (GetFrames stack) /\
    match rest with
    | [] => True
    | f :: _ => in_project f = false
    end.
Proof.
  unfold GetFrames, runtime_Callers.
  destruct (take 99 (drop 2 stack)) as [|f pcs] eqn:Hpcs.
  - exists []. repeat split; constructor.
  - change (0 <? length (f :: pcs)) with true; cbv iota.
    apply frames_loop_prefix.
Qed.

(** The collector as the specification words it: the walk starts two frames
    above [GetFrames] (its own frame and its caller's are skipped), and takes
    the frames that belong to the project up to the first one that does not. *)
Definition GetFrames_as_specified (stack : list Frame) : list Frame :=
  frames_loop (drop 3 stack) [].

Definition sample_stack : list Frame :=
  [ mkFrame "runtime.Callers" "runtime/extern.go" 331;
    mkFrame "myProject/common.GetFrames" "common/common.go" 28;
    mkFrame "myProject/builder.(*Model).First" "builder/query.go" 247;
    mkFrame "myProject/service.LoadUser" "service/user.go" 40;
    mkFrame "main.main" "main.go" 12 ].

(** C9, as stated, fails: the frame of the function that called [GetFrames]
    ([sample_stack !! 2]) is the first one returned, not skipped. *)
Lemma GetFrames_keeps_caller_frame :
  GetFrames sample_stack =
    [ mkFrame "myProject/builder.(*Model).First" "builder/query.go" 247;
      mkFrame "myProject/service.LoadUser" "service/user.go" 40 ] /\
  head (GetFrames sample_stack) = sample_stack !! 2 /\
  GetFrames_as_specified sample_stack =
    [ mkFrame "myProject/service.LoadUser" "service/user.go" 40 ] /\
  GetFrames sample_stack <> GetFrames_as_specified sample_stack.
Proof. vm_compute. repeat split; congruence. Qed.

(** With the package path of this repository the caller's frame is outside
    the project name, and the walk ends at once. *)
Example GetFrames_from_builder :
  GetFrames [ mkFrame "runtime.Callers" "runtime/extern.go" 331;
              mkFrame "gorm-logged/common.GetFrames" "common/common.go" 28;
              mkFrame "gorm-logged/builder.(*Model).First" "builder/query.go" 247;
              mkFrame "myProject/service.LoadUser" "service/user.go" 40 ] = [].
Proof. reflexivity. Qed.

(** ** Preload slices *)

(** A slice header is sound in a world when its window lies inside its
    backing array. Go's slices always are. *)
Definition slice_ok (w : World) (s : slice) : Prop :=
  s_len s <= s_cap s /\ s_off s + s_cap s <= length (array_at w (s_arr s)).

Definition preload_call (p : preload) : call := EPreload (field p) (conditions p).

Lemma nil_slice_ok (w : World) : slice_ok w nil_slice.
Proof. split; simpl; lia. Qed.

Lemma slice_elems_length (w : World) (s : slice) :
  slice_ok w s -> length (slice_elems w s) = s_len s.
Proof.
  intros [Hlen Hcap]. unfold slice_elems. rewrite length_take, length_drop. lia.
Qed.

Lemma slice_from1_ok (w : World) (s : slice) :
  slice_ok w s -> 0 < s_len s -> slice_ok w (slice_from1 s).
Proof. intros [Hlen Hcap] Hpos. split; simpl; lia. Qed.

Lemma slice_elems_unfold (w : World) (s : slice) :
  slice_ok w s -> 0 < s_len s ->
  slice_elems w s = slice_get w s 0 :: slice_elems w (slice_from1 s).
Proof.
  intros [Hlen Hcap] Hpos. unfold slice_elems, slice_get, slice_from1; simpl.
  rewrite Nat.add_0_r.
  destruct (array_at w (s_arr s) !! s_off s) as [p|] eqn:Hp.
  - rewrite (drop_S _ p _ Hp). destruct (s_len s) as [|n]; [lia|]. simpl.
    by rewrite Nat.sub_0_r.
  - apply lookup_ge_None in Hp. lia.
Qed.

Lemma applyPreloads_rec_world (fuel : nat) (m : Model) (w : World) :
  (applyPreloads_rec fuel m w).1 = w.
Proof.
  revert m. induction fuel as [|fuel IH]; intros m; simpl; [done|].
  destruct (0 <? s_len (preloads m)); [apply IH | done].
Qed.

Lemma applyPreloads_rec_shape (fuel : nat) (m : Model) (w : World) :
  logTrace (applyPreloads_rec fuel m w).2 = logTrace m /\
  preloads (applyPreloads_rec fuel m w).2 = nil_slice.
Proof.
  revert m. induction fuel as [|fuel IH]; intros m; simpl; [done|].
  destruct (0 <? s_len (preloads m)); [|done].
  match goal with
  | |- context [applyPreloads_rec fuel ?m' w] => destruct (IH m') as [-> ->]
  end.
  done.
Qed.

Lemma applyPreloads_rec_db (fuel : nat) (m : Model) (w : World) :
  slice_ok w (preloads m) -> s_len (preloads m) <= fuel ->
  db (applyPreloads_rec fuel m w).2 = db m ++ map preload_call (slice_elems w (preloads m)).
Proof.
  revert m. induction fuel as [|fuel IH]; intros m Hok Hfuel; simpl.
  - assert (Hlen : s_len (preloads m) = 0) by lia.
    unfold slice_elems. rewrite Hlen. simpl. by rewrite app_nil_r.
  - destruct (0 <? s_len (preloads m)) eqn:Hpos.
    + apply Nat.ltb_lt in Hpos.
      rewrite IH; simpl; [|by apply slice_from1_ok | lia].
      rewrite (slice_elems_unfold w (preloads m)) by done. simpl.
      unfold db_call. by rewrite <- app_assoc.
    + apply Nat.ltb_ge in Hpos. assert (Hlen : s_len (preloads m) = 0) by lia.
      unfold slice_elems. rewrite Hlen. simpl. by rewrite app_nil_r.
Qed.

Lemma applyPreloads_world (m : Model) (w : World) : (applyPreloads m w).1 = w.
Proof. apply applyPreloads_rec_world. Qed.

Lemma applyPreloads_db (m : Model) (w : World) :
  slice_ok w (preloads m) ->
  db (applyPreloads m w).2 = db m ++ map preload_call (slice_elems w (preloads m)).
Proof. intros Hok. apply applyPreloads_rec_db; [done | lia]. Qed.

Lemma applyPreloads_eq (m : Model) (w : World) :
  slice_ok w (preloads m) ->
  applyPreloads m w =
    (w, mkModel (db m ++ map preload_call (slice_elems w (preloads m))) (logTrace m) nil_slice).
Proof.
  intros Hok.
  pose proof (applyPreloads_world m w) as Hw.
  pose proof (applyPreloads_db m w Hok) as Hdb.
  destruct (applyPreloads_rec_shape (S (s_len (preloads m))) m w) as [Ht Hp].
  fold (applyPreloads m w) in Ht, Hp.
  destruct (applyPreloads m w) as [w' [d t p]]; simpl in *. by subst.
Qed.

(** C6. [applyPreloads] returns a facade with no pending preloads and the
    same trace map (the same object, so the same contents); with an empty
    queue the engine handle is the one it was given; and it changes nothing
    in the world: no log record, no statement, no heap write (it has no error
    result). The handle it returns has the pending preloads applied in queue
    order. *)
Theorem applyPreloads_spec (m : Model) (w : World) :
  slice_ok w (preloads m) ->
  s_len (preloads (applyPreloads m w).2) = 0 /\
  slice_elems w (preloads (applyPreloads m w).2) = [] /\
  logTrace (applyPreloads m w).2 = logTrace m /\
  trace_of (applyPreloads m w).1 (logTrace (applyPreloads m w).2) = trace_of w (logTrace m) /\
  (s_len (preloads m) = 0 -> db (applyPreloads m w).2 = db m) /\
  (applyPreloads m w).1 = w /\
  db (applyPreloads m w).2 = db m ++ map preload_call (slice_elems w (preloads m)).
Proof.
  intros Hok. rewrite (applyPreloads_eq m w Hok); simpl.
  repeat split; try done.
  intros Hlen. unfold slice_elems. rewrite Hlen. simpl. by rewrite app_nil_r.
Qed.

Lemma slice_elems_arrays (w w' : World) (s : slice) :
  arrays w' = arrays w -> slice_elems w' s = slice_elems w s.
Proof. intros H. unfold slice_elems, array_at. by rewrite H. Qed.

Lemma slice_ok_arrays (w w' : World) (s : slice) :
  arrays w' = arrays w -> slice_ok w' s <-> slice_ok w s.
Proof. intros H. unfold slice_ok, array_at. by rewrite H. Qed.

Lemma array_at_fresh (w : World) : array_at w (fresh (dom (arrays w))) = [].
Proof.
  unfold array_at.
  destruct (arrays w !! fresh (dom (arrays w))) eqn:Hl; [|done].
  apply (elem_of_dom_2 (D:=gset nat)) in Hl. by apply is_fresh in Hl.
Qed.

Lemma append_frame (s : slice) (x : preload) (w : World) :
  maps (append s x w).1 = maps w /\ logged (append s x w).1 = logged w /\
  issued (append s x w).1 = issued w /\ engine (append s x w).1 = engine w /\
  spare (append s x w).1 = spare w /\ callstack (append s x w).1 = callstack w.
Proof. unfold append. by destruct (s_len s <? s_cap s). Qed.

(** What [append] does to the window of the slice it extends and to any other
    slice header: the result reads as the old elements followed by the new
    one, the argument header still reads as before, and every sound header
    stays sound. *)
Lemma append_spec (s : slice) (x : preload) (w : World) :
  slice_ok w s ->
  slice_elems (append s x w).1 (append s x w).2 = slice_elems w s ++ [x] /\
  slice_ok (append s x w).1 (append s x w).2 /\
  slice_elems (append s x w).1 s = slice_elems w s /\
  (forall t, slice_ok w t -> slice_ok (append s x w).1 t).
Proof.
  intros [Hlen Hcap]. unfold append.
  destruct (s_len s <? s_cap s) eqn:Hroom; simpl.
  - apply Nat.ltb_lt in Hroom.
    set (arr := array_at w (s_arr s)) in *.
    assert (Harr : forall a, array_at
       (set_arrays (fun ars => <[s_arr s := <[(s_off s + s_len s) := x]> arr]> ars) w) a =
       if decide (s_arr s = a) then <[(s_off s + s_len s) := x]> arr else array_at w a).
    { intros a. unfold array_at at 1; simpl. rewrite lookup_insert.
      by destruct (decide (s_arr s = a)). }
    repeat split; simpl; try lia.
    + unfold slice_elems; simpl. rewrite Harr, decide_True by done. fold arr.
      rewrite drop_insert_ge by lia.
      replace (s_off s + s_len s - s_off s) with (s_len s) by lia.
      assert (Hd : s_len s < length (drop (s_off s) arr)) by (rewrite length_drop; lia).
      rewrite (take_S_r _ _ x); [|by apply list_lookup_insert_eq].
      by rewrite take_insert_ge by lia.
    + rewrite Harr, decide_True by done. rewrite length_insert. fold arr. lia.
    + unfold slice_elems. rewrite Harr, decide_True by done. fold arr.
      rewrite drop_insert_ge by lia. by rewrite take_insert_ge by lia.
    + destruct H as [? _]. done.
    + destruct H as [_ H]. rewrite Harr. destruct (decide (s_arr s = s_arr t)) as [Heq|]; [|done].
      rewrite length_insert. unfold arr. by rewrite Heq.
  - apply Nat.ltb_ge in Hroom.
    set (a := fresh (dom (arrays w))).
    set (new := slice_elems w s ++ x :: replicate (spare w (s_len s)) zero_preload).
    assert (Hfresh : array_at w a = []) by apply array_at_fresh.
    assert (Harr : forall b, array_at (set_arrays (fun ars => <[a := new]> ars) w) b =
                             if decide (a = b) then new else array_at w b).
    { intros b. unfold array_at at 1; simpl. rewrite lookup_insert.
      by destruct (decide (a = b)). }
    assert (Hel : length (slice_elems w s) = s_len s) by by apply slice_elems_length.
    repeat split; simpl; try lia.
    + unfold slice_elems at 1; simpl. rewrite Harr, decide_True by done.
      unfold new. rewrite drop_0.
      rewrite cons_middle, app_assoc.
      apply take_app_length'. rewrite length_app; simpl; lia.
    + rewrite Harr, decide_True by done. unfold new.
      rewrite length_app; simpl. rewrite length_replicate. lia.
    + unfold slice_elems at 1. rewrite Harr.
      destruct (decide (a = s_arr s)) as [Heq|]; [|done].
      rewrite <- Heq, Hfresh in Hcap. simpl in Hcap.
      assert (H0 : s_len s = 0) by lia.
      unfold slice_elems. by rewrite H0.
    + destruct H as [? _]. done.
    + destruct H as [_ H]. rewrite Harr. destruct (decide (a = s_arr t)) as [Heq|]; [|done].
      rewrite <- Heq, Hfresh in H. simpl in H. lia.
Qed.

(** ** Configuration calls: what they leave alone *)

(** The directive a configuration call queues, and the builder calls it makes
    on the engine handle at once. *)
Definition added (c : config) : list preload :=
  match c with
  | CPreload column conds => [mkPreload column conds]
  | _ => []
  end.

Definition builder_calls (c : config) : list call :=
  match c with
  | CPreload _ _ => []
  | CDebug => [EDebug]
  | CUnscoped => [EUnscoped]
  | CIgnoreConflicts => [EClauses_OnConflict_DoNothing]
  | CModel v => [EModel v]
  | CSelect query args => [ESelect query args]
  | CTable name => [ETable name]
  | CLimit limit => [ELimit limit]
  | COffset offset => [EOffset offset]
  | COrder v => [EOrder v]
  | CSet name v => [ESet name v]
  | COmit columns => [EOmit columns]
  | CWhere query args => [EWhere query args]
  | CNot query args => [ENot query args]
  | CGroup name => [EGroup name]
  | CHaving query args => [EHaving query args]
  | CJoins query args => [EJoins query (Some [slice_value args])]
  | CRaw sql values => [ERaw sql values]
  end.

Ltac unfold_config :=
  unfold configure, Preload, Debug, Unscoped, IgnoreConflicts, Model_, Select, Table, Limit,
    Offset, Order, Set_, Omit, Where, Not, Group, Having, Joins, raw.

(** The world without its trace maps. *)
Definition rest_of (w : World) :=
  (arrays w, logged w, issued w, engine w, spare w, callstack w).

Lemma rest_of_trace_set (l : loc) (k : string) (v : logval) (w : World) :
  rest_of (trace_set l k v w) = rest_of w.
Proof. done. Qed.

Lemma rest_of_initLogTrace (t : option loc) (w : World) :
  rest_of (initLogTrace t w).1 = rest_of w.
Proof. by destruct t. Qed.

Lemma rest_of_append (s : slice) (x : preload) (w : World) :
  maps (append s x w).1 = maps w /\
  (logged (append s x w).1, issued (append s x w).1, engine (append s x w).1,
   spare (append s x w).1, callstack (append s x w).1) =
  (logged w, issued w, engine w, spare w, callstack w).
Proof. unfold append. by destruct (s_len s <? s_cap s). Qed.

Lemma configure_rest (c : config) (m : Model) (w : World) :
  match c with
  | CPreload column conds =>
      exists w1, rest_of w1 = rest_of w /\
        (configure c m w).1 = (append (preloads m) (mkPreload column conds) w1).1 /\
        preloads (configure c m w).2 = (append (preloads m) (mkPreload column conds) w1).2
  | _ => rest_of (configure c m w).1 = rest_of w /\ preloads (configure c m w).2 = preloads m
  end /\
  db (configure c m w).2 = db m ++ builder_calls c.
Proof.
  destruct c; unfold_config;
    pose proof (rest_of_initLogTrace (logTrace m) w) as Hinit;
    destruct (initLogTrace (logTrace m) w) as [w1 l]; simpl in Hinit;
    try (split; [split|]; try done; repeat case_match; by rewrite ?rest_of_trace_set).
  set (w2 := if 0 <? len conds
             then trace_set l ("preloadConditions-" +:+ column) (LRaw (slice_value conds))
                    (trace_set l ("preloadColumn-" +:+ column) (LRaw (VStr column)) w1)
             else trace_set l ("preloadColumn-" +:+ column) (LRaw (VStr column)) w1).
  assert (Hw2 : rest_of w2 = rest_of w).
  { unfold w2. case_match; by rewrite ?rest_of_trace_set. }
  destruct (append (preloads m) (mkPreload column conds) w2) as [w3 ps] eqn:Happ; simpl.
  split; [|by rewrite app_nil_r].
  exists w2. by rewrite Happ.
Qed.

Lemma rest_of_arrays (w w' : World) : rest_of w' = rest_of w -> arrays w' = arrays w.
Proof. unfold rest_of. congruence. Qed.

Lemma rest_of_outside (w w' : World) :
  rest_of w' = rest_of w ->
  logged w' = logged w /\ issued w' = issued w /\ engine w' = engine w /\
  callstack w' = callstack w.
Proof. unfold rest_of. intros H. by inversion H. Qed.

(** A configuration call and the preload queue: the new facade's queue is the
    receiver's followed by the directive the call adds (none but for
    [Preload]); the receiver's own queue reads as before; nothing is logged
    and no statement is run. *)
Lemma configure_preloads (c : config) (m : Model) (w : World) :
  slice_ok w (preloads m) ->
  slice_ok (configure c m w).1 (preloads (configure c m w).2) /\
  slice_elems (configure c m w).1 (preloads (configure c m w).2) =
    slice_elems w (preloads m) ++ added c /\
  slice_elems (configure c m w).1 (preloads m) = slice_elems w (preloads m) /\
  (forall t, slice_ok w t -> slice_ok (configure c m w).1 t) /\
  logged (configure c m w).1 = logged w /\ issued (configure c m w).1 = issued w /\
  engine (configure c m w).1 = engine w /\ callstack (configure c m w).1 = callstack w.
Proof.
  intros Hok. destruct (configure_rest c m w) as [Hrest _].
  assert (Hother : forall c', c = c' -> added c' = [] ->
            rest_of (configure c' m w).1 = rest_of w /\
            preloads (configure c' m w).2 = preloads m ->
            slice_ok (configure c' m w).1 (preloads (configure c' m w).2) /\
            slice_elems (configure c' m w).1 (preloads (configure c' m w).2) =
              slice_elems w (preloads m) ++ added c' /\
            slice_elems (configure c' m w).1 (preloads m) = slice_elems w (preloads m) /\
            (forall t, slice_ok w t -> slice_ok (configure c' m w).1 t) /\
            logged (configure c' m w).1 = logged w /\ issued (configure c' m w).1 = issued w /\
            engine (configure c' m w).1 = engine w /\
            callstack (configure c' m w).1 = callstack w).
  { intros c' _ Hadd [Hr Hp]. rewrite Hp, Hadd, app_nil_r.
    pose proof (rest_of_arrays _ _ Hr) as Ha.
    destruct (rest_of_outside _ _ Hr) as (? & ? & ? & ?).
    split_and!; try done; try (by apply slice_elems_arrays).
    - by apply (slice_ok_arrays w).
    - intros t Ht. by apply (slice_ok_arrays w). }
  destruct c; try (by apply Hother).
  destruct Hrest as (w1 & Hr & Hw & Hp). rewrite Hw, Hp.
  pose proof (rest_of_arrays _ _ Hr) as Ha.
  destruct (rest_of_outside _ _ Hr) as (Hl & Hi & He & Hc).
  assert (Hok1 : slice_ok w1 (preloads m)) by by apply (slice_ok_arrays w).
  destruct (append_spec (preloads m) (mkPreload column conds) w1 Hok1) as (H1 & H2 & H3 & H4).
  destruct (append_frame (preloads m) (mkPreload column conds) w1) as (_ & Hl' & Hi' & He' & _ & Hc').
  rewrite H1, H3, Hl', Hi', He', Hc', (slice_elems_arrays w w1) by done.
  split_and!; try done.
  intros t Ht. apply H4. by apply (slice_ok_arrays w).
Qed.

Definition chain_added (cs : list config) : list preload := flat_map added cs.

Definition chain_calls (cs : list config) : list call := flat_map builder_calls cs.

(** Along a chain the queue grows in call order, whatever other calls come in
    between, and the handle receives the other calls' builder calls. *)
Lemma chain_preloads (cs : list config) (m : Model) (w : World) :
  slice_ok w (preloads m) ->
  slice_ok (chain cs m w).1 (preloads (chain cs m w).2) /\
  slice_elems (chain cs m w).1 (preloads (chain cs m w).2) =
    slice_elems w (preloads m) ++ chain_added cs /\
  db (chain cs m w).2 = db m ++ chain_calls cs /\
  logged (chain cs m w).1 = logged w /\ issued (chain cs m w).1 = issued w /\
  engine (chain cs m w).1 = engine w /\ callstack (chain cs m w).1 = callstack w.
Proof.
  revert m w. induction cs as [|c cs IH]; intros m w Hok; simpl.
  - by rewrite !app_nil_r.
  - destruct (configure_preloads c m w Hok) as (H1 & H2 & _ & _ & H3 & H4 & H5 & H6).
    destruct (configure_rest c m w) as [_ Hdb].
    destruct (configure c m w) as [w1 m1]; simpl in *.
    destruct (IH m1 w1 H1) as (I1 & I2 & I3 & I4 & I5 & I6 & I7).
    rewrite I2, I3, I4, I5, I6, I7, H2, Hdb, H3, H4, H5, H6.
    unfold chain_added, chain_calls; simpl. by rewrite <- !app_assoc.
Qed.

(** ** Terminal operations: the statement issued and the result *)

(** The engine operation a terminal call stands for, on handle [d]. *)
Definition engine_stmt (op : terminal) (d : DB) : Stmt :=
  match op with
  | OpPluck column v => mkStmt d (FPluck column v)
  | OpFirst out conds => mkStmt d (FFirst out conds)
  | OpLast out conds => mkStmt d (FLast out conds)
  | OpTake dest conds => mkStmt d (FTake dest conds)
  | OpFind out conds => mkStmt d (FFind out conds)
  | OpScan dest => mkStmt d (FScan dest)
  | OpCreate v => mkStmt d (FCreate v)
  | OpSave v => mkStmt d (FSave v)
  | OpUpdates attrs => mkStmt d (FUpdates attrs)
  | OpDelete v conds => mkStmt d (FDelete v conds)
  | OpCount => mkStmt d FCount
  | OpExec sql values => mkStmt d (FExec sql values)
  | OpUpdateByFilter filter values =>
      mkStmt (d ++ [EModel filter; EWhere filter None]) (FUpdates values)
  end.

(** [UpdateByFilter] with a filter that does not get past its guard (the zero
    value of its type, or nil, for which the guard panics). *)
Definition stopped_by_guard (op : terminal) : bool :=
  match op with
  | OpUpdateByFilter filter _ =>
      match reflect_TypeOf filter with
      | None => true
      | Some t => reflect_DeepEqual filter (reflect_Zero t)
      end
  | _ => false
  end.

(** The calls that test for the engine's record-not-found error. *)
Definition checks_not_found (op : terminal) : bool :=
  match op with
  | OpFirst _ _ | OpLast _ _ | OpTake _ _ => true
  | _ => false
  end.

Definition is_count (op : terminal) : bool :=
  match op with OpCount => true | _ => false end.

(** The receiver's handle with its pending preloads applied in queue order. *)
Definition preloaded (m : Model) (w : World) : DB :=
  db m ++ map preload_call (slice_elems w (preloads m)).

Definition handle_for (op : terminal) (m : Model) (w : World) : DB :=
  if is_count op then db m else preloaded m w.

(** The record of a failed call: error severity, the engine's error, the trace
    map of the receiver, and the fields of the call. *)
Definition failure_entry (m : Model) (w : World) (e : error) (entry : Entry) : Prop :=
  exists logFields msg,
    entry = mkEntry ErrorLevel msg
              (WithFields logFields (WithFields (trace_of w (logTrace m)) (WithError e))).

Lemma terminate_spec (op : terminal) (m : Model) (w : World) :
  slice_ok w (preloads m) -> stopped_by_guard op = false ->
  issued (terminate op m w).1 = issued w ++ [engine_stmt op (handle_for op m w)] /\
  maps (terminate op m w).1 = maps w /\ arrays (terminate op m w).1 = arrays w /\
  match r_err (engine w (issued w) (engine_stmt op (handle_for op m w))) with
  | None => (terminate op m w).2 = Returned None /\ logged (terminate op m w).1 = logged w
  | Some e =>
      if checks_not_found op && is_chain e gorm_ErrRecordNotFound
      then (terminate op m w).2 = Returned (Some ErrNotFound) /\
           logged (terminate op m w).1 = logged w
      else (terminate op m w).2 = Returned (Some ErrInternal) /\
           exists entry, logged (terminate op m w).1 = logged w ++ [entry] /\
                         e_level entry = ErrorLevel /\ failure_entry m w e entry
  end.
Proof.
  intros Hok Hguard. unfold handle_for, preloaded.
  destruct op; simpl in *;
    unfold Pluck, First, Last, Take, Find, Scan, Create, Save, Updates, Delete, Count, exec,
      UpdateByFilter, returned;
    try (destruct (reflect_TypeOf filter) as [t|]; [|done]; rewrite Hguard);
    rewrite ?(applyPreloads_eq m w Hok); simpl; unfold db_call; rewrite <- ?app_assoc; simpl;
    destruct (r_err _) as [e|]; simpl; try done;
    try (destruct (is_chain e gorm_ErrRecordNotFound); simpl; [done|]);
    (split_and!; try done); eexists; (split_and!; try done);
    unfold failure_entry, log_failure, logrus_Error; simpl; by do 2 eexists.
Qed.

(** A callback that, whatever else it does, only adds to the statements the
    engine has run. *)
Definition only_issues (fc : Model -> Z -> World -> World * option error) : Prop :=
  forall m batch w, exists more, issued (fc m batch w).1 = issued w ++ more.

Lemma run_batches_issued (fc : Model -> Z -> World -> World * option error) (m : Model)
    (n : nat) (batch : Z) (w : World) :
  only_issues fc ->
  exists more, issued (run_batches (fc m) n batch w).1 = issued w ++ more.
Proof.
  intros Hfc. revert batch w. induction n as [|n IH]; intros batch w; simpl.
  - exists []. by rewrite app_nil_r.
  - destruct (Hfc m batch w) as [more1 H1].
    destruct (fc m batch w) as [w1 [e|]]; simpl in *; [by exists more1|].
    destruct (IH (batch + 1)%Z w1) as [more2 H2].
    exists (more1 ++ more2). by rewrite H2, H1, app_assoc.
Qed.

(** [BatchFind]: the statement goes out on the preloaded handle; the callback
    runs after it, on the receiver; the error that comes back from the engine
    (the callback's or its own) is logged once and replaced by [ErrInternal]. *)
Lemma BatchFind_spec (m : Model) (dest : value) (batchSize : Z)
    (fc : Model -> Z -> World -> World * option error) (w : World) :
  slice_ok w (preloads m) ->
  let st := mkStmt (preloaded m w) (FFindInBatches dest batchSize) in
  let after := gorm_FindInBatches (preloaded m w) dest batchSize (fc m) w in
  after = (let cb := run_batches (fc m) (r_batches (engine w (issued w) st)) 1%Z
                       (run_stmt (preloaded m w) (FFindInBatches dest batchSize) w).1 in
           (cb.1, match cb.2 with
                  | Some e => Some e
                  | None => r_err (engine w (issued w) st)
                  end)) /\
  issued (run_stmt (preloaded m w) (FFindInBatches dest batchSize) w).1 = issued w ++ [st] /\
  match after.2 with
  | None => BatchFind m dest batchSize fc w = (after.1, None)
  | Some e =>
      (BatchFind m dest batchSize fc w).2 = Some ErrInternal /\
      issued (BatchFind m dest batchSize fc w).1 = issued after.1 /\
      exists entry, logged (BatchFind m dest batchSize fc w).1 = logged after.1 ++ [entry] /\
                    e_level entry = ErrorLevel /\ failure_entry m after.1 e entry
  end.
Proof.
  intros Hok st after. unfold BatchFind. rewrite (applyPreloads_eq m w Hok). simpl.
  fold (preloaded m w). change (fun batch : Z => fc m batch) with (fc m). fold after.
  split_and!.
  - unfold after, gorm_FindInBatches, run_stmt; simpl. fold st.
    by destruct (run_batches _ _ _ _) as [w2 [e|]].
  - done.
  - destruct after as [w2 [e|]]; simpl; [|done].
    split_and!; [done..|]. eexists. split_and!; [done..|].
    unfold failure_entry, log_failure, logrus_Error. by do 2 eexists.
Qed.

(** ** C1: preloads before the engine operation *)

(** C1, as the code has it. After any chain of configuration calls, every
    terminal call except [Count] runs its engine operation on the handle that
    has received the chain's other builder calls and then every queued
    preload, in the order the [Preload] calls were made, whatever came in
    between; [BatchFind] does the same before its callback runs. [Count] runs
    on the handle without the queued preloads. ([UpdateByFilter] is meant
    with a filter that passes its guard.) *)
Theorem terminal_applies_preloads (cs : list config) (m : Model) (w : World) :
  slice_ok w (preloads m) ->
  let queued := slice_elems w (preloads m) ++ chain_added cs in
  let m1 := (chain cs m w).2 in
  let w1 := (chain cs m w).1 in
  (forall op, stopped_by_guard op = false ->
     issued (terminate op m1 w1).1 =
       issued w ++ [engine_stmt op (db m ++ chain_calls cs ++
                                    if is_count op then [] else map preload_call queued)]) /\
  (forall dest batchSize fc, only_issues fc ->
     exists more,
       issued (BatchFind m1 dest batchSize fc w1).1 =
         issued w ++ mkStmt (db m ++ chain_calls cs ++ map preload_call queued)
                            (FFindInBatches dest batchSize) :: more).
Proof.
  intros Hok queued m1 w1.
  destruct (chain_preloads cs m w Hok) as (H1 & H2 & H3 & _ & H5 & _).
  fold m1 w1 in H1, H2, H3, H5. fold queued in H2.
  assert (Hpre : preloaded m1 w1 = db m ++ chain_calls cs ++ map preload_call queued).
  { unfold preloaded. by rewrite H2, H3, <- app_assoc. }
  split.
  - intros op Hguard.
    destruct (terminate_spec op m1 w1 H1 Hguard) as (Hi & _).
    rewrite Hi, H5. unfold handle_for. rewrite Hpre, H3.
    destruct (is_count op); by rewrite ?app_nil_r.
  - intros dest batchSize fc Hfc.
    destruct (BatchFind_spec m1 dest batchSize fc w1 H1) as (Hafter & Hst & Hres).
    rewrite Hpre in Hafter, Hst, Hres.
    set (after := gorm_FindInBatches _ dest batchSize (fc m1) w1) in *.
    assert (Hi : exists more, issued after.1 =
              issued w ++ mkStmt (db m ++ chain_calls cs ++ map preload_call queued)
                                 (FFindInBatches dest batchSize) :: more).
    { rewrite Hafter; simpl.
      match goal with
      | |- context [run_batches (fc m1) ?n ?b ?w0] =>
          destruct (run_batches_issued fc m1 n b w0 Hfc) as [more Hm]
      end.
      exists more. rewrite Hm. simpl. by rewrite H5, <- app_assoc. }
    destruct Hi as [more Hi]. exists more.
    destruct (after.2) as [e|].
    + destruct Hres as (_ & Hsame & _). by rewrite Hsame.
    + by rewrite Hres.
Qed.

Definition sample_dest : value :=
  VPtr (TStruct [("ID", TInt); ("Name", TString)])
       (Some (VStruct [("ID", TInt, VInt 0%Z); ("Name", TString, VStr "")])).

Definition sample_chain : list config :=
  [CWhere (VStr "status = ?") (Some [VStr "active"]); CPreload "Owner" None; CLimit 10%Z].

Lemma terminal_applies_preloads_witness :
  slice_ok (world0 ok_result) (preloads root) /\
  issued (terminate (OpFind sample_dest None)
            (chain sample_chain root (world0 ok_result)).2
            (chain sample_chain root (world0 ok_result)).1).1 =
    [mkStmt [EWhere (VStr "status = ?") (Some [VStr "active"]); ELimit 10%Z;
             EPreload "Owner" None]
            (FFind sample_dest None)].
Proof.
  assert (H : slice_ok (world0 ok_result) (preloads root)) by (vm_compute; lia).
  split; [exact H|].
  exact (proj1 (terminal_applies_preloads sample_chain root (world0 ok_result) H)
           (OpFind sample_dest None) eq_refl).
Defined.

(** C1, as stated, fails for [Count]: with the directive for ["Role"] pending,
    [Count] runs on the bare handle, while [Find] on the same facade runs on
    the handle with the preload applied. *)
Lemma Count_skips_pending_preloads :
  let w1 := (Preload root "Role" None (world0 ok_result)).1 in
  let m1 := (Preload root "Role" None (world0 ok_result)).2 in
  slice_elems w1 (preloads m1) = [mkPreload "Role" None] /\
  issued (Count m1 w1).1 = [mkStmt [] FCount] /\
  issued (Count m1 w1).1 <> issued w1 ++ [engine_stmt OpCount (preloaded m1 w1)] /\
  issued (Find m1 sample_dest None w1).1 =
    [mkStmt [EPreload "Role" None] (FFind sample_dest None)].
Proof. vm_compute. split_and!; congruence. Qed.

(** ** C3: how the engine's error is reported *)

(** C3, as the code has it. A nil error from the engine gives a nil result
    and no log record. [First], [Last] and [Take] turn an error that is or
    wraps [gorm.ErrRecordNotFound] into [ErrNotFound], without a log record.
    Every other error, and for the other terminal calls every error, that
    one included, is logged once at error severity with the receiver's trace
    map and replaced by [ErrInternal]. For [BatchFind] the error is the one
    its engine call comes back with. *)
Theorem engine_error_classification (m : Model) (w : World) :
  slice_ok w (preloads m) ->
  (forall op, stopped_by_guard op = false ->
     match r_err (engine w (issued w) (engine_stmt op (handle_for op m w))) with
     | None => (terminate op m w).2 = Returned None /\ logged (terminate op m w).1 = logged w
     | Some e =>
         if checks_not_found op && is_chain e gorm_ErrRecordNotFound
         then (terminate op m w).2 = Returned (Some ErrNotFound) /\
              logged (terminate op m w).1 = logged w
         else (terminate op m w).2 = Returned (Some ErrInternal) /\
              exists entry, logged (terminate op m w).1 = logged w ++ [entry] /\
                            e_level entry = ErrorLevel /\ failure_entry m w e entry
     end) /\
  (forall dest batchSize fc,
     let after := gorm_FindInBatches (preloaded m w) dest batchSize (fc m) w in
     match after.2 with
     | None => BatchFind m dest batchSize fc w = (after.1, None)
     | Some e =>
         (BatchFind m dest batchSize fc w).2 = Some ErrInternal /\
         exists entry, logged (BatchFind m dest batchSize fc w).1 = logged after.1 ++ [entry] /\
                       e_level entry = ErrorLevel /\ failure_entry m after.1 e entry
     end).
Proof.
  intros Hok. split.
  - intros op Hguard. by destruct (terminate_spec op m w Hok Hguard) as (_ & _ & _ & H).
  - intros dest batchSize fc after.
    destruct (BatchFind_spec m dest batchSize fc w Hok) as (_ & _ & H). fold after in H.
    destruct (after.2); [|done]. by destruct H as (? & _ & ?).
Qed.

Definition not_found_result : Result := mkResult (Some gorm_ErrRecordNotFound) 0%Z 0.

Definition wrapped_not_found : error := ErrWrap "load user" gorm_ErrRecordNotFound.

Lemma engine_error_classification_witness :
  slice_ok (world0 (mkResult (Some wrapped_not_found) 0%Z 0)) (preloads root) /\
  (terminate (OpFirst sample_dest None) root
     (world0 (mkResult (Some wrapped_not_found) 0%Z 0))).2 = Returned (Some ErrNotFound) /\
  logged (terminate (OpFirst sample_dest None) root
            (world0 (mkResult (Some wrapped_not_found) 0%Z 0))).1 = [].
Proof.
  assert (H : slice_ok (world0 (mkResult (Some wrapped_not_found) 0%Z 0)) (preloads root))
    by (vm_compute; lia).
  split; [exact H|].
  exact (proj1 (engine_error_classification root _ H) (OpFirst sample_dest None) eq_refl).
Defined.

(** C3, as stated, fails for the calls that do not test for record-not-found:
    [Find] answers the engine's [gorm.ErrRecordNotFound] with [ErrInternal]
    and a log record. *)
Lemma Find_not_found_is_internal :
  errors_Is (r_err not_found_result) gorm_ErrRecordNotFound = true /\
  (Find root sample_dest None (world0 not_found_result)).2 = Some ErrInternal /\
  (Find root sample_dest None (world0 not_found_result)).2 <> Some ErrNotFound /\
  length (logged (Find root sample_dest None (world0 not_found_result)).1) = 1 /\
  logged (world0 not_found_result) = [].
Proof. vm_compute. split_and!; congruence. Qed.

(** ** C5: the guard of [UpdateByFilter] *)

Lemma UpdateByFilter_nil_filter (m : Model) (values : value) (w : World) :
  UpdateByFilter m VNil values w = (w, Panicked "reflect: Zero(nil)").
Proof. reflexivity. Qed.

(** C5, at the nil filter. A nil [filter] is the zero value of the
    parameter's type [interface{}] ([reflect_Zero TIface]). There the guard
    does not reject: [reflect.TypeOf] gives the nil type and [reflect.Zero]
    panics on it, so the call neither logs nor returns [ErrInternal] (and
    runs no statement). *)
Theorem UpdateByFilter_nil_filter_panics (m : Model) (values : value) (w : World) :
  reflect_Zero TIface = VNil /\
  reflect_TypeOf VNil = None /\
  UpdateByFilter m VNil values w = (w, Panicked "reflect: Zero(nil)") /\
  (UpdateByFilter m VNil values w).2 <> Returned (Some ErrInternal) /\
  logged (UpdateByFilter m VNil values w).1 = logged w /\
  issued (UpdateByFilter m VNil values w).1 = issued w.
Proof. split_and!; try done. Qed.

(** The guard on a filter that has a dynamic type: when the filter equals the
    zero value of that type, [UpdateByFilter] writes one error record, returns
    [ErrInternal] and runs no statement; when it differs, the engine update
    runs (on the preloaded handle, with [Model(filter).Where(filter)]). *)
Theorem UpdateByFilter_zero_guard (m : Model) (filter values : value) (t : type) (w : World) :
  slice_ok w (preloads m) ->
  reflect_TypeOf filter = Some t ->
  (filter = reflect_Zero t ->
     (UpdateByFilter m filter values w).2 = Returned (Some ErrInternal) /\
     issued (UpdateByFilter m filter values w).1 = issued w /\
     logged (UpdateByFilter m filter values w).1 =
       logged w ++ [mkEntry ErrorLevel "queryBuilder.UpdateByFilter called for empty filter" ∅]) /\
  (filter <> reflect_Zero t ->
     issued (UpdateByFilter m filter values w).1 =
       issued w ++ [mkStmt (preloaded m w ++ [EModel filter; EWhere filter None])
                           (FUpdates values)]).
Proof.
  intros Hok Ht. split.
  - intros Hzero. apply reflect_DeepEqual_eq in Hzero.
    unfold UpdateByFilter. by rewrite Ht, Hzero.
  - intros Hnz.
    assert (Hguard : stopped_by_guard (OpUpdateByFilter filter values) = false).
    { simpl. rewrite Ht. destruct (reflect_DeepEqual _ _) eqn:Heq; [|done].
      by apply reflect_DeepEqual_eq in Heq. }
    by destruct (terminate_spec (OpUpdateByFilter filter values) m w Hok Hguard) as (H & _).
Qed.

Definition sample_filter_type : type := TStruct [("ID", TInt); ("Email", TString)].

Definition empty_filter : value :=
  VStruct [("ID", TInt, VInt 0%Z); ("Email", TString, VStr "")].

Lemma UpdateByFilter_zero_guard_witness :
  slice_ok (world0 ok_result) (preloads root) /\
  reflect_TypeOf empty_filter = Some sample_filter_type /\
  (UpdateByFilter root empty_filter (VStr "x") (world0 ok_result)).2 =
    Returned (Some ErrInternal) /\
  issued (UpdateByFilter root empty_filter (VStr "x") (world0 ok_result)).1 = [].
Proof.
  assert (H : slice_ok (world0 ok_result) (preloads root)) by (vm_compute; lia).
  assert (Ht : reflect_TypeOf empty_filter = Some sample_filter_type) by reflexivity.
  split; [exact H|]. split; [exact Ht|].
  pose proof (proj1 (UpdateByFilter_zero_guard root empty_filter (VStr "x")
                       sample_filter_type (world0 ok_result) H Ht) eq_refl) as (H1 & H2 & _).
  split; [exact H1 | exact H2].
Defined.

(** A pointer to an empty struct is not the zero value of its (pointer) type:
    the guard lets it through. *)
Example UpdateByFilter_pointer_to_empty :
  issued (UpdateByFilter root (VPtr sample_filter_type (Some empty_filter)) (VStr "x")
            (world0 ok_result)).1 =
    [mkStmt [EModel (VPtr sample_filter_type (Some empty_filter));
             EWhere (VPtr sample_filter_type (Some empty_filter)) None]
            (FUpdates (VStr "x"))].
Proof. reflexivity. Qed.

(** ** Configuration calls and the trace map *)

(** The writes a configuration call makes into the trace map it obtained from
    [initLogTrace], in order, when that map reads [T] before the call. *)
Definition trace_puts (c : config) (T : gmap string logval) : list (string * logval) :=
  match c with
  | CPreload column conds =>
      ("preloadColumn-" +:+ column, LRaw (VStr column)) ::
      (if 0 <? len conds
       then [("preloadConditions-" +:+ column, LRaw (slice_value conds))] else [])
  | CDebug => []
  | CUnscoped => [("unscoped", LRaw (VBool true))]
  | CIgnoreConflicts => [("ignoreConflicts", LRaw (VBool true))]
  | CModel v => [("model", LPretty v)]
  | CSelect query args =>
      ("selectQuery", LRaw query) ::
      (if 0 <? len args then [("selectArgs", LPretty (slice_value args))] else [])
  | CTable name => [("tableName", LRaw (VStr name))]
  | CLimit limit => [("limit", LRaw (VInt limit))]
  | COffset offset => [("offset", LRaw (VInt offset))]
  | COrder v => [("order", LPretty v)]
  | CSet name v =>
      let i := scan_unused T "setName" (S (size T)) 0 in
      [("setName" +:+ strconv_Itoa i, LRaw (VStr name));
       ("setValue" +:+ strconv_Itoa i, LRaw v)]
  | COmit columns => [("omit", LRaw (strings_value columns))]
  | CWhere query args =>
      let i := scan_unused T "whereQuery" (S (size T)) 0 in
      ("whereQuery" +:+ strconv_Itoa i, LPretty query) ::
      (if 0 <? len args
       then [("whereArgs" +:+ strconv_Itoa i, LPretty (slice_value args))] else [])
  | CNot query args =>
      ("notQuery", LPretty query) ::
      (if 0 <? len args then [("notArgs", LRaw (slice_value args))] else [])
  | CGroup name => [("groupName", LRaw (VStr name))]
  | CHaving query args =>
      ("havingQuery", LRaw query) ::
      (if 0 <? len args then [("havingArgs", LRaw (slice_value args))] else [])
  | CJoins query args =>
      let i := scan_unused T "joinsQuery" (S (size T)) 0 in
      ("joinsQuery" +:+ strconv_Itoa i, LRaw (VStr query)) ::
      (if 0 <? len args
       then [("joinsArgs" +:+ strconv_Itoa i, LPretty (slice_value args))] else [])
  | CRaw sql values =>
      ("rawSql", LRaw (VStr sql)) ::
      (if 0 <? len values then [("rawValues", LRaw (slice_value values))] else [])
  end.

Definition put_all (puts : list (string * logval)) (T : gmap string logval) :
    gmap string logval :=
  foldl (fun T kv => <[kv.1 := kv.2]> T) T puts.

(** The map object a configuration call writes to: the receiver's, or a new
    one when the receiver has none. *)
Definition trace_loc (m : Model) (w : World) : loc :=
  match logTrace m with
  | Some l => l
  | None => fresh (dom (maps w))
  end.

Lemma maps_trace_set (l : loc) (k : string) (v : logval) (w : World) :
  maps (trace_set l k v w) = <[l := <[k := v]> (fields_at w l)]> (maps w).
Proof. done. Qed.

Lemma fields_at_trace_set (l : loc) (k : string) (v : logval) (w : World) :
  fields_at (trace_set l k v w) l = <[k := v]> (fields_at w l).
Proof. unfold fields_at. by rewrite maps_trace_set, lookup_insert_eq. Qed.

Lemma initLogTrace_spec (m : Model) (w : World) :
  (initLogTrace (logTrace m) w).2 = trace_loc m w /\
  fields_at (initLogTrace (logTrace m) w).1 (trace_loc m w) = trace_of w (logTrace m) /\
  <[trace_loc m w := trace_of w (logTrace m)]> (maps (initLogTrace (logTrace m) w).1) =
    <[trace_loc m w := trace_of w (logTrace m)]> (maps w).
Proof.
  unfold trace_loc, fields_at. destruct (logTrace m) as [l|]; simpl; [done|].
  rewrite lookup_insert_eq. split_and!; [done..|]. by rewrite insert_insert_eq.
Qed.

(** The trace side of a configuration call: the map object at [trace_loc]
    receives the call's writes; the new facade refers to that object, except
    after [Debug] and [Unscoped], which hand on the receiver's reference. *)
Lemma configure_maps (c : config) (m : Model) (w : World) :
  maps (configure c m w).1 =
    match c with
    | CDebug => maps w
    | _ => <[trace_loc m w :=
               put_all (trace_puts c (trace_of w (logTrace m))) (trace_of w (logTrace m))]>
             (maps w)
    end /\
  logTrace (configure c m w).2 =
    match c with
    | CDebug | CUnscoped => logTrace m
    | _ => Some (trace_loc m w)
    end.
Proof.
  destruct (initLogTrace_spec m w) as (Hl & HT & Hms).
  assert (Hins : forall T, <[trace_loc m w := T]> (maps (initLogTrace (logTrace m) w).1) =
                           <[trace_loc m w := T]> (maps w)).
  { intros T.
    rewrite <- (insert_insert_eq (maps (initLogTrace (logTrace m) w).1) (trace_loc m w)
                  T (trace_of w (logTrace m))), Hms.
    by rewrite insert_insert_eq. }
  destruct c; unfold_config; try done;
    destruct (initLogTrace (logTrace m) w) as [w1 l]; simpl in Hl, HT, Hins; subst l;
    unfold first_unused; rewrite ?HT;
    simpl; repeat case_match; simpl;
    try match goal with
        | H : append ?s ?x ?w2 = (?w3, _) |- _ =>
            let Hm := fresh "Hm" in
            pose proof (proj1 (rest_of_append s x w2)) as Hm;
            rewrite H in Hm; simpl in Hm; rewrite Hm
        end;
    rewrite ?maps_trace_set, ?fields_at_trace_set, ?insert_insert_eq, ?HT, Hins; done.
Qed.

(** ** The scan for the first unused index *)

Lemma indexed_key_inj (prefix : string) (i j : nat) :
  prefix +:+ strconv_Itoa i = prefix +:+ strconv_Itoa j -> i = j.
Proof.
  intros H. apply (inj (String.append prefix)) in H. by apply (inj pretty) in H.
Qed.

Lemma scan_unused_from (T : gmap string logval) (prefix : string) (fuel i : nat)
    (d : gset string) :
  size d < fuel ->
  (forall j, i <= j -> is_Some (T !! (prefix +:+ strconv_Itoa j)) ->
             prefix +:+ strconv_Itoa j ∈ d) ->
  T !! (prefix +:+ strconv_Itoa (scan_unused T prefix fuel i)) = None /\
  i <= scan_unused T prefix fuel i /\
  forall j, i <= j < scan_unused T prefix fuel i ->
            is_Some (T !! (prefix +:+ strconv_Itoa j)).
Proof.
  revert i d. induction fuel as [|fuel IH]; intros i d Hsize Hd; [lia|]. simpl.
  destruct (T !! (prefix +:+ strconv_Itoa i)) as [v|] eqn:Hi.
  - assert (Hin : prefix +:+ strconv_Itoa i ∈ d) by (apply Hd; [lia | by rewrite Hi]).
    destruct (IH (S i) (d ∖ {[prefix +:+ strconv_Itoa i]})) as (H1 & H2 & H3).
    + assert (Hs : size d = size (d ∖ {[prefix +:+ strconv_Itoa i]}) + 1).
      { rewrite size_difference by (by apply singleton_subseteq_l).
        rewrite size_singleton.
        assert (0 < size d); [|lia].
        apply Nat.neq_0_lt_0. intros H0. apply size_empty_inv in H0.
        apply (not_elem_of_empty (C:=gset string) (prefix +:+ strconv_Itoa i)).
        by rewrite <- H0. }
      lia.
    + intros j Hj Hsome. apply elem_of_difference. split; [apply Hd; [lia | done]|].
      intros Heq. apply elem_of_singleton in Heq. apply indexed_key_inj in Heq. lia.
    + split_and!; [done | lia |].
      intros j Hj. destruct (decide (j = i)) as [->|]; [by rewrite Hi | apply H3; lia].
  - split_and!; [done | lia | intros j Hj; lia].
Qed.

(** The loop leaves at the least index whose key is not in the map. *)
Lemma scan_unused_spec (T : gmap string logval) (prefix : string) :
  let i := scan_unused T prefix (S (size T)) 0 in
  T !! (prefix +:+ strconv_Itoa i) = None /\
  forall j, j < i -> is_Some (T !! (prefix +:+ strconv_Itoa j)).
Proof.
  destruct (scan_unused_from T prefix (S (size T)) 0 (dom T)) as (H1 & _ & H3).
  - rewrite size_dom. lia.
  - intros j _ Hj. by apply elem_of_dom.
  - split; [done|]. intros j Hj. apply H3. lia.
Qed.

(** ** Indexed trace keys *)

(** The configuration calls that number their trace keys: the prefix of the
    main key and its value, the prefix of the companion key and its value when
    the call writes one. *)
Definition indexed (c : config) : option (string * logval * string * option logval) :=
  match c with
  | CWhere query args =>
      Some ("whereQuery", LPretty query, "whereArgs",
            if 0 <? len args then Some (LPretty (slice_value args)) else None)
  | CJoins query args =>
      Some ("joinsQuery", LRaw (VStr query), "joinsArgs",
            if 0 <? len args then Some (LPretty (slice_value args)) else None)
  | CSet name v => Some ("setName", LRaw (VStr name), "setValue", Some (LRaw v))
  | _ => None
  end.

Definition kinds : list (string * string) :=
  [("whereQuery", "whereArgs"); ("joinsQuery", "joinsArgs"); ("setName", "setValue")].

(** A key that carries an index, of either sort. *)
Definition numbered (k : string) : Prop :=
  exists pq pa i, (pq, pa) ∈ kinds /\
    (k = pq +:+ strconv_Itoa i \/ k = pa +:+ strconv_Itoa i).

(** Companion keys only occur next to their main key; every map the
    configuration calls build has this shape. *)
Definition paired (T : gmap string logval) : Prop :=
  forall pq pa i, (pq, pa) ∈ kinds ->
    is_Some (T !! (pa +:+ strconv_Itoa i)) -> is_Some (T !! (pq +:+ strconv_Itoa i)).

Lemma paired_empty : paired ∅.
Proof. intros pq pa i _ [v Hv]. by rewrite lookup_empty in Hv. Qed.

Ltac split_kinds H :=
  unfold kinds in H; rewrite !elem_of_cons, elem_of_nil in H;
  destruct H as [H|[H|[H|[]]]]; injection H as -> ->.

Ltac same_index :=
  match goal with
  | H : ?p +:+ strconv_Itoa ?i = ?p +:+ strconv_Itoa ?j |- _ =>
      apply indexed_key_inj in H; subst
  end.

(** A write under a numbered key goes to an index whose main key is free. *)
Lemma puts_unused (c : config) (T : gmap string logval) (k : string) (v : logval)
    (pq pa : string) (i : nat) :
  (k, v) ∈ trace_puts c T -> (pq, pa) ∈ kinds ->
  k = pq +:+ strconv_Itoa i \/ k = pa +:+ strconv_Itoa i ->
  T !! (pq +:+ strconv_Itoa i) = None.
Proof.
  intros Hput Hkind Hk.
  destruct c; unfold trace_puts in Hput; cbv zeta in Hput; repeat case_match;
    rewrite ?elem_of_cons, ?elem_of_nil in Hput;
    (destruct Hput as [Hput|[Hput|[]]] || destruct Hput as [Hput|[]] || destruct Hput);
    injection Hput as -> ->; split_kinds Hkind; destruct Hk as [Hk|Hk];
    try discriminate Hk;
    same_index; apply scan_unused_spec.
Qed.

Lemma put_all_lookup_ne (puts : list (string * logval)) (T : gmap string logval) (k : string) :
  (forall k' v', (k', v') ∈ puts -> k' <> k) -> put_all puts T !! k = T !! k.
Proof.
  revert T. induction puts as [|[k0 v0] puts IH]; intros T Hne; simpl; [done|].
  rewrite IH.
  - apply lookup_insert_ne. apply (Hne k0 v0). by left.
  - intros k' v' Hin. apply (Hne k' v'). by right.
Qed.

Lemma put_all_is_Some (puts : list (string * logval)) (T : gmap string logval) (k : string) :
  is_Some (put_all puts T !! k) <-> is_Some (T !! k) \/ exists v, (k, v) ∈ puts.
Proof.
  revert T. induction puts as [|[k0 v0] puts IH]; intros T; simpl.
  - split; [by left | intros [H|[v Hv]]; [done | by apply elem_of_nil in Hv]].
  - rewrite IH. split.
    + intros [H|[v Hv]].
      * destruct (decide (k0 = k)) as [->|Hne].
        -- right. exists v0. by left.
        -- left. by rewrite lookup_insert_ne in H.
      * right. exists v. by right.
    + intros [H|[v Hv]].
      * left. destruct (decide (k0 = k)) as [->|Hne].
        -- by rewrite lookup_insert_eq.
        -- by rewrite lookup_insert_ne.
      * apply elem_of_cons in Hv as [Heq|Hv].
        -- injection Heq as -> ->. left. by rewrite lookup_insert_eq.
        -- right. by exists v.
Qed.

(** No configuration call overwrites an entry under a numbered key. *)
Lemma puts_keep (c : config) (T : gmap string logval) (k : string) (v : logval) :
  paired T -> numbered k -> T !! k = Some v ->
  put_all (trace_puts c T) T !! k = Some v.
Proof.
  intros Hp (pq & pa & i & Hkind & Hk) Hv.
  rewrite put_all_lookup_ne; [done|].
  intros k' v' Hput ->.
  pose proof (puts_unused c T k v' pq pa i Hput Hkind Hk) as Hnone.
  destruct Hk as [->| ->].
  - by rewrite Hv in Hnone.
  - destruct (Hp pq pa i Hkind) as [x Hx]; [by rewrite Hv|]. by rewrite Hx in Hnone.
Qed.

(** A numbering call writes its main key whenever it writes the companion. *)
Lemma puts_companion (c : config) (T : gmap string logval) (pq pa : string) (i : nat)
    (v : logval) :
  (pq, pa) ∈ kinds -> (pa +:+ strconv_Itoa i, v) ∈ trace_puts c T ->
  exists vq, (pq +:+ strconv_Itoa i, vq) ∈ trace_puts c T.
Proof.
  intros Hkind Hput.
  destruct c; unfold trace_puts in *; cbv zeta in *; repeat case_match;
    rewrite ?elem_of_cons, ?elem_of_nil in Hput;
    (destruct Hput as [Hput|[Hput|[]]] || destruct Hput as [Hput|[]] || destruct Hput);
    split_kinds Hkind; try discriminate Hput;
    injection Hput as Hk ->; same_index; eexists; by left.
Qed.

Lemma puts_paired (c : config) (T : gmap string logval) :
  paired T -> paired (put_all (trace_puts c T) T).
Proof.
  intros Hp pq pa i Hkind Hsome.
  apply put_all_is_Some in Hsome as [Hsome|[v Hput]].
  - destruct (Hp pq pa i Hkind Hsome) as [x Hx].
    exists x. apply puts_keep; [done| |done].
    exists pq, pa, i. split; [done | by left].
  - destruct (puts_companion c T pq pa i v Hkind Hput) as [vq Hq].
    apply put_all_is_Some. right. by exists vq.
Qed.

(** The trace the new facade reads after a configuration call. *)
Lemma configure_trace_of (c : config) (m : Model) (w : World) :
  trace_of (configure c m w).1 (logTrace (configure c m w).2) =
    match c, logTrace m with
    | CUnscoped, None => ∅
    | _, _ => put_all (trace_puts c (trace_of w (logTrace m))) (trace_of w (logTrace m))
    end.
Proof.
  destruct (configure_maps c m w) as [Hm Hl]. rewrite Hl.
  destruct c; try (unfold trace_of at 1, fields_at; rewrite Hm, lookup_insert_eq; done).
  - destruct (logTrace m) as [l|]; [|done].
    unfold trace_of at 1, fields_at. by rewrite Hm.
  - unfold trace_loc in Hm. destruct (logTrace m) as [l|]; [|done].
    unfold trace_of at 1, fields_at. by rewrite Hm, lookup_insert_eq.
Qed.

(** [T'] keeps what [T] holds under numbered keys. *)
Definition keeps (T T' : gmap string logval) : Prop :=
  paired T' /\ forall k v, numbered k -> T !! k = Some v -> T' !! k = Some v.

Lemma configure_keeps (c : config) (m : Model) (w : World) :
  paired (trace_of w (logTrace m)) ->
  keeps (trace_of w (logTrace m)) (trace_of (configure c m w).1 (logTrace (configure c m w).2)).
Proof.
  intros Hp. rewrite configure_trace_of.
  assert (Hk : keeps (trace_of w (logTrace m))
                 (put_all (trace_puts c (trace_of w (logTrace m))) (trace_of w (logTrace m)))).
  { split; [by apply puts_paired|]. intros k v Hn Hv. by apply puts_keep. }
  destruct c; try done.
  destruct (logTrace m); [done|]. simpl. split; [apply paired_empty | done].
Qed.

Lemma chain_keeps (cs : list config) (m : Model) (w : World) :
  paired (trace_of w (logTrace m)) ->
  keeps (trace_of w (logTrace m)) (trace_of (chain cs m w).1 (logTrace (chain cs m w).2)).
Proof.
  revert m w. induction cs as [|c cs IH]; intros m w Hp; simpl.
  - by split.
  - destruct (configure_keeps c m w Hp) as [Hp1 Hk1].
    destruct (configure c m w) as [w1 m1]; simpl in *.
    destruct (IH m1 w1 Hp1) as [Hp2 Hk2].
    split; [done|]. intros k v Hn Hv. apply Hk2; [done|]. by apply Hk1.
Qed.

Lemma chain_cons (c : config) (cs : list config) (m : Model) (w : World) :
  chain (c :: cs) m w = chain cs (configure c m w).2 (configure c m w).1.
Proof. simpl. by destruct (configure c m w). Qed.

Lemma chain_app (xs ys : list config) (m : Model) (w : World) :
  chain (xs ++ ys) m w = chain ys (chain xs m w).2 (chain xs m w).1.
Proof.
  revert m w. induction xs as [|c xs IH]; intros m w; simpl; [done|].
  destruct (configure c m w) as [w1 m1]. apply IH.
Qed.

(** One numbering call: it writes at the least index whose main key is free
    in the trace the receiver reads. *)
Lemma indexed_step (c : config) (m : Model) (w : World) (pq pa : string) (vq : logval)
    (va : option logval) :
  indexed c = Some (pq, vq, pa, va) ->
  let T := trace_of w (logTrace m) in
  let T' := trace_of (configure c m w).1 (logTrace (configure c m w).2) in
  let i := scan_unused T pq (S (size T)) 0 in
  (pq, pa) ∈ kinds /\
  T !! (pq +:+ strconv_Itoa i) = None /\
  (forall j, j < i -> is_Some (T !! (pq +:+ strconv_Itoa j))) /\
  T' !! (pq +:+ strconv_Itoa i) = Some vq /\
  (forall a, va = Some a -> T' !! (pa +:+ strconv_Itoa i) = Some a).
Proof.
  intros Hc T T' i. unfold T'. rewrite configure_trace_of. fold T.
  destruct (scan_unused_spec T pq) as [Hnone Hbelow]. fold i in Hnone, Hbelow.
  destruct c; try discriminate Hc; injection Hc as <- <- <- <-;
    unfold trace_puts; cbv zeta; fold i;
    (split_and!; [unfold kinds; set_solver | done | done | |]);
    repeat case_match; unfold put_all; simpl foldl.
  all: try (intros a Ha; injection Ha as <-).
  all: try (intros a Ha; discriminate Ha).
  all: rewrite ?lookup_insert_eq; try done.
  all: rewrite lookup_insert_ne by (intros Heq; discriminate Heq).
  all: by rewrite lookup_insert_eq.
Qed.

(** C4, as the code has it. [Where], [Joins] and [Set] number their trace
    keys: each such call writes under the least index whose main key
    ([whereQuery<i>], [joinsQuery<i>], [setName<i>]) is absent from the trace.
    When a chain holds two calls of one of these methods, the trace at the
    end of the chain has both main entries, under different indices, each
    with its companion entry ([whereArgs<i>], [joinsArgs<i>], [setValue<i>])
    if the call wrote one. [Select] writes under the one key [selectQuery], so
    a second [Select] replaces the entry of the first. *)
Theorem numbered_entries_retained (pre mid post : list config) (c1 c2 : config)
    (m : Model) (w : World) (pq pa : string) (v1 v2 : logval) (a1 a2 : option logval) :
  paired (trace_of w (logTrace m)) ->
  indexed c1 = Some (pq, v1, pa, a1) ->
  indexed c2 = Some (pq, v2, pa, a2) ->
  let before1 := chain pre m w in
  let before2 := chain (pre ++ c1 :: mid) m w in
  let final := chain (pre ++ c1 :: mid ++ c2 :: post) m w in
  let T1 := trace_of before1.1 (logTrace before1.2) in
  let T2 := trace_of before2.1 (logTrace before2.2) in
  let T := trace_of final.1 (logTrace final.2) in
  (exists i1 i2,
     i1 <> i2 /\
     (T1 !! (pq +:+ strconv_Itoa i1) = None /\
      forall j, j < i1 -> is_Some (T1 !! (pq +:+ strconv_Itoa j))) /\
     (T2 !! (pq +:+ strconv_Itoa i2) = None /\
      forall j, j < i2 -> is_Some (T2 !! (pq +:+ strconv_Itoa j))) /\
     T !! (pq +:+ strconv_Itoa i1) = Some v1 /\
     T !! (pq +:+ strconv_Itoa i2) = Some v2 /\
     (forall a, a1 = Some a -> T !! (pa +:+ strconv_Itoa i1) = Some a) /\
     (forall a, a2 = Some a -> T !! (pa +:+ strconv_Itoa i2) = Some a)) /\
  (forall q1 q2 args1 args2,
     let S := chain [CSelect q1 args1; CSelect q2 args2] m w in
     trace_of S.1 (logTrace S.2) !! "selectQuery" = Some (LRaw q2)).
Proof.
  intros Hp Hc1 Hc2 before1 before2 final T1 T2 T. split.
  - (* after [pre] *)
    destruct (chain_keeps pre m w Hp) as [Hp1 _]. fold before1 in Hp1. fold T1 in Hp1.
    (* the first call *)
    destruct (indexed_step c1 before1.2 before1.1 pq pa v1 a1 Hc1)
      as (Hkind & Hn1 & Hb1 & Hq1 & Ha1).
    fold T1 in Hn1, Hb1. set (i1 := scan_unused T1 pq (S (size T1)) 0) in *.
    destruct (configure_keeps c1 before1.2 before1.1 Hp1) as [Hp1' _].
    set (s1 := configure c1 before1.2 before1.1) in *.
    (* through [mid] *)
    destruct (chain_keeps mid s1.2 s1.1 Hp1') as [Hp2 Hk2].
    assert (Hb2 : before2 = chain mid s1.2 s1.1).
    { unfold before2. rewrite chain_app. simpl. fold before1. fold s1. by destruct s1. }
    rewrite <- Hb2 in Hp2, Hk2. fold T2 in Hp2, Hk2.
    (* the second call *)
    destruct (indexed_step c2 before2.2 before2.1 pq pa v2 a2 Hc2)
      as (_ & Hn2 & Hbl2 & Hq2 & Ha2).
    fold T2 in Hn2, Hbl2. set (i2 := scan_unused T2 pq (S (size T2)) 0) in *.
    destruct (configure_keeps c2 before2.2 before2.1 Hp2) as [Hp2' Hk2'].
    set (s2 := configure c2 before2.2 before2.1) in *.
    (* through [post] *)
    destruct (chain_keeps post s2.2 s2.1 Hp2') as [_ Hk3].
    assert (Hfin : final = chain post s2.2 s2.1).
    { unfold final.
      replace (pre ++ c1 :: mid ++ c2 :: post) with ((pre ++ c1 :: mid) ++ c2 :: post)
        by (by rewrite <- app_assoc).
      rewrite chain_app. simpl. fold before2. fold s2. by destruct s2. }
    rewrite <- Hfin in Hk3. fold T in Hk3.
    assert (Hnq : forall i, numbered (pq +:+ strconv_Itoa i)).
    { intros i. exists pq, pa, i. split; [done | by left]. }
    assert (Hna : forall i, numbered (pa +:+ strconv_Itoa i)).
    { intros i. exists pq, pa, i. split; [done | by right]. }
    assert (Hq1' : T2 !! (pq +:+ strconv_Itoa i1) = Some v1) by (apply Hk2; auto).
    exists i1, i2. split_and!; try done.
    + intros ->. by rewrite Hn2 in Hq1'.
    + apply Hk3; [done|]. apply Hk2'; auto.
    + apply Hk3; auto.
    + intros a Ha. apply Hk3; [done|]. apply Hk2'; [done|]. apply Hk2; auto.
    + intros a Ha. apply Hk3; auto.
  - intros q1 q2 args1 args2 S. unfold S.
    rewrite !chain_cons. cbn [chain fst snd].
    rewrite configure_trace_of. unfold trace_puts, put_all. case_match; simpl.
    + rewrite lookup_insert_ne by (intros Heq; discriminate Heq). apply lookup_insert_eq.
    + apply lookup_insert_eq.
Qed.

Lemma numbered_entries_retained_witness :
  paired (trace_of (world0 ok_result) (logTrace root)) /\
  exists i1 i2, i1 <> i2 /\
    let final := chain ([CLimit 5%Z] ++ CWhere (VStr "a = ?") (Some [VInt 1%Z]) ::
                        [CPreload "Owner" None] ++ CWhere (VStr "b") None ::
                        [COrder (VStr "id")]) root (world0 ok_result) in
    trace_of final.1 (logTrace final.2) !! ("whereQuery" +:+ strconv_Itoa i1) =
      Some (LPretty (VStr "a = ?")) /\
    trace_of final.1 (logTrace final.2) !! ("whereQuery" +:+ strconv_Itoa i2) =
      Some (LPretty (VStr "b")).
Proof.
  assert (Hp : paired (trace_of (world0 ok_result) (logTrace root))) by exact paired_empty.
  split; [exact Hp|].
  destruct (numbered_entries_retained [CLimit 5%Z] [CPreload "Owner" None]
              [COrder (VStr "id")] (CWhere (VStr "a = ?") (Some [VInt 1%Z]))
              (CWhere (VStr "b") None) root (world0 ok_result)
              "whereQuery" "whereArgs" _ _ _ _ Hp eq_refl eq_refl)
    as [(i1 & i2 & Hne & _ & _ & H1 & H2 & _) _].
  exists i1, i2. split; [exact Hne|]. split; [exact H1 | exact H2].
Defined.

(** C4, as stated, fails for the calls that do not number their keys: after
    two [Select] calls the trace holds the second query only. *)
Lemma second_Select_replaces_first :
  let final := chain [CSelect (VStr "id") None; CSelect (VStr "name") None]
                     root (world0 ok_result) in
  trace_of final.1 (logTrace final.2) = {[ "selectQuery" := LRaw (VStr "name") ]} /\
  map_to_list (trace_of final.1 (logTrace final.2)) = [("selectQuery", LRaw (VStr "name"))].
Proof. vm_compute. done. Qed.

(** ** C2: what a configuration call does to its receiver *)

Lemma append_full_other (s t : slice) (x : preload) (w : World) :
  s_cap s <= s_len s -> slice_ok w t ->
  slice_elems (append s x w).1 t = slice_elems w t.
Proof.
  intros Hfull [Hlen Hcap]. unfold append.
  destruct (s_len s <? s_cap s) eqn:Hroom; [apply Nat.ltb_lt in Hroom; lia|].
  unfold slice_elems, array_at at 1; simpl. rewrite lookup_insert.
  destruct (decide (fresh (dom (arrays w)) = s_arr t)) as [Heq|]; [|done].
  rewrite <- Heq, array_at_fresh in Hcap |- *. simpl in Hcap.
  assert (H0 : s_len t = 0) by lia. by rewrite H0.
Qed.

Lemma configure_full_other (c : config) (m : Model) (t : slice) (w : World) :
  s_cap (preloads m) <= s_len (preloads m) -> slice_ok w t ->
  slice_elems (configure c m w).1 t = slice_elems w t.
Proof.
  intros Hfull Hok. destruct (configure_rest c m w) as [Hrest _].
  destruct c; try (apply slice_elems_arrays, rest_of_arrays; by destruct Hrest).
  destruct Hrest as (w1 & Hr & Hw & _). rewrite Hw.
  pose proof (rest_of_arrays _ _ Hr) as Ha.
  rewrite append_full_other; [by apply slice_elems_arrays | done |].
  by apply (slice_ok_arrays w).
Qed.

Lemma fresh_not_allocated (w : World) (l : loc) :
  l ∈ dom (maps w) -> l <> fresh (dom (maps w)).
Proof. intros Hin ->. by apply is_fresh in Hin. Qed.

(** With a nil trace in the receiver, a configuration call leaves every
    allocated map as it is, and the map of the new facade, if it has one, is
    allocated by the call. *)
Lemma configure_nil_trace (c : config) (m : Model) (w : World) :
  logTrace m = None ->
  (forall l, l ∈ dom (maps w) -> maps (configure c m w).1 !! l = maps w !! l) /\
  (forall l, logTrace (configure c m w).2 = Some l ->
             l ∈ dom (maps (configure c m w).1) /\ l ∉ dom (maps w)).
Proof.
  intros Hnil. destruct (configure_maps c m w) as [Hm Hl].
  unfold trace_loc in Hm, Hl. rewrite Hnil in Hm, Hl. rewrite Hm, Hl. split.
  - intros l Hin. destruct c; try done;
      (rewrite lookup_insert_ne; [done | by apply not_eq_sym, fresh_not_allocated]).
  - intros l Hsome. destruct c; try discriminate Hsome; injection Hsome as <-;
      (split; [rewrite dom_insert_L; set_solver | apply is_fresh]).
Qed.

(** C2, as the code has it. A configuration call returns a new facade whose
    queue is the receiver's followed by what the call adds, and the receiver's
    queue still reads as before. The trace map is another matter:
    - when the receiver has no trace map, it still has none afterwards, no
      allocated map is touched, and a second call on the same receiver
      neither shares a map with the first new facade nor changes what that
      facade's trace reads;
    - when the receiver has a trace map, the new facade refers to that same
      map and the call's entries are written into it, so the receiver reads
      them too.
    The queue of the first new facade is out of reach of a second call on the
    receiver when the receiver's slice has no spare capacity. *)
Theorem configure_receiver (c c2 : config) (m : Model) (w : World) :
  slice_ok w (preloads m) ->
  let s1 := configure c m w in
  let s2 := configure c2 m s1.1 in
  slice_elems s1.1 (preloads m) = slice_elems w (preloads m) /\
  slice_elems s1.1 (preloads s1.2) = slice_elems w (preloads m) ++ added c /\
  (logTrace m = None ->
     trace_of s1.1 (logTrace m) = trace_of w (logTrace m) /\
     (forall l, l ∈ dom (maps w) -> maps s1.1 !! l = maps w !! l) /\
     trace_of s2.1 (logTrace s1.2) = trace_of s1.1 (logTrace s1.2) /\
     (forall l1 l2, logTrace s1.2 = Some l1 -> logTrace s2.2 = Some l2 -> l1 <> l2)) /\
  (forall l, logTrace m = Some l ->
     logTrace s1.2 = Some l /\
     trace_of s1.1 (logTrace m) =
       put_all (trace_puts c (fields_at w l)) (fields_at w l)) /\
  (s_cap (preloads m) <= s_len (preloads m) ->
     slice_elems s2.1 (preloads s1.2) = slice_elems s1.1 (preloads s1.2)).
Proof.
  intros Hok s1 s2.
  destruct (configure_preloads c m w Hok) as (Hok1 & Hel1 & Hrecv & Hmono & _).
  fold s1 in Hok1, Hel1, Hrecv, Hmono.
  split_and!; [done | done | | |].
  - intros Hnil.
    destruct (configure_nil_trace c m w Hnil) as [Hkeep Hnew]. fold s1 in Hkeep, Hnew.
    destruct (configure_nil_trace c2 m s1.1 Hnil) as [Hkeep2 Hnew2].
    fold s2 in Hkeep2, Hnew2.
    split_and!; [by rewrite Hnil | done | |].
    + destruct (logTrace s1.2) as [l1|] eqn:Hl1; [|done].
      destruct (Hnew l1 eq_refl) as [Hin _].
      unfold trace_of, fields_at. by rewrite Hkeep2.
    + intros l1 l2 Hl1 Hl2 ->.
      destruct (Hnew l2 Hl1) as [Hin _]. destruct (Hnew2 l2 Hl2) as [_ Hout]. done.
  - intros l Hsome. destruct (configure_maps c m w) as [Hm Hl]. fold s1 in Hm, Hl.
    unfold trace_loc in Hm, Hl. rewrite Hsome in Hm, Hl. rewrite Hsome. split.
    + rewrite Hl. by destruct c.
    + unfold trace_of at 1, fields_at at 1. rewrite Hm.
      destruct c; try (by rewrite lookup_insert_eq). done.
  - intros Hfull. by apply configure_full_other.
Qed.

Lemma configure_receiver_witness :
  slice_ok (world0 ok_result) (preloads root) /\
  let s1 := configure (CWhere (VStr "a") None) root (world0 ok_result) in
  let s2 := configure (CLimit 5%Z) root s1.1 in
  logTrace root = None /\
  trace_of s2.1 (logTrace s1.2) = trace_of s1.1 (logTrace s1.2).
Proof.
  assert (H : slice_ok (world0 ok_result) (preloads root)) by (vm_compute; lia).
  split; [exact H|].
  destruct (configure_receiver (CWhere (VStr "a") None) (CLimit 5%Z) root
              (world0 ok_result) H) as (_ & _ & Hnil & _).
  destruct (Hnil eq_refl) as (_ & _ & Hsame & _).
  split; [reflexivity | exact Hsame].
Defined.

(** C2, as stated, fails. With [A] a facade that has a trace map, a call on
    [A] writes into the map [A] reads, and a second call on [A] writes into
    the map the first new facade reads. With spare capacity in [A]'s slice
    (three preloads in an array of four under the doubling policy), a second
    [Preload] on [A] overwrites the directive the first one queued. *)
Lemma configuration_call_changes_receiver :
  let A := Where root (VStr "a") None (world0 ok_result) in
  let B := Where A.2 (VStr "b") None A.1 in
  let C := Limit A.2 5%Z B.1 in
  let P := chain [CPreload "a" None; CPreload "b" None; CPreload "c" None]
                 root (world0 ok_result) in
  let X := Preload P.2 "x" None P.1 in
  let Y := Preload P.2 "y" None X.1 in
  (trace_of A.1 (logTrace A.2) !! "whereQuery1" = None /\
   trace_of B.1 (logTrace A.2) !! "whereQuery1" = Some (LPretty (VStr "b"))) /\
  (trace_of B.1 (logTrace B.2) !! "limit" = None /\
   trace_of C.1 (logTrace B.2) !! "limit" = Some (LRaw (VInt 5%Z))) /\
  (slice_elems X.1 (preloads X.2) =
     [mkPreload "a" None; mkPreload "b" None; mkPreload "c" None; mkPreload "x" None] /\
   slice_elems Y.1 (preloads X.2) =
     [mkPreload "a" None; mkPreload "b" None; mkPreload "c" None; mkPreload "y" None]).
Proof. vm_compute. done. Qed.

Lemma applyPreloads_spec_witness :
  let P := chain [CPreload "Owner" None; CWhere (VStr "a") None;
                  CPreload "Role" (Some [VInt 1%Z])] root (world0 ok_result) in
  slice_ok P.1 (preloads P.2) /\
  s_len (preloads (applyPreloads P.2 P.1).2) = 0 /\
  db (applyPreloads P.2 P.1).2 =
    [EWhere (VStr "a") None; EPreload "Owner" None; EPreload "Role" (Some [VInt 1%Z])].
Proof.
  set (P := chain [CPreload "Owner" None; CWhere (VStr "a") None;
                   CPreload "Role" (Some [VInt 1%Z])] root (world0 ok_result)).
  assert (H : slice_ok P.1 (preloads P.2)) by (vm_compute; lia).
  split; [exact H|].
  destruct (applyPreloads_spec P.2 P.1 H) as (H1 & _ & _ & _ & _ & _ & H2).
  split; [exact H1 | exact H2].
Defined.

(** ** C10: the variadic tail *)

(** C10. [Joins] gives its extra arguments to the engine as one value, the
    slice itself, so the engine's variadic tail has exactly one element and
    is not the tail the caller passed; the other variadic configuration
    methods pass the tail on as they received it, [Preload] when its
    directive is applied. *)
Theorem Joins_passes_args_as_one_value (m : Model) (w : World) (query : string)
    (q : value) (args : goslice) (columns : option (list string)) :
  db (Joins m query args w).2 = db m ++ [EJoins query (Some [VSlice TIface args])] /\
  Some [VSlice TIface args] <> args /\
  len (Some [VSlice TIface args]) = 1 /\
  db (Where m q args w).2 = db m ++ [EWhere q args] /\
  db (Select m q args w).2 = db m ++ [ESelect q args] /\
  db (Not m q args w).2 = db m ++ [ENot q args] /\
  db (Having m q args w).2 = db m ++ [EHaving q args] /\
  db (raw m query args w).2 = db m ++ [ERaw query args] /\
  db (Omit m columns w).2 = db m ++ [EOmit columns] /\
  (slice_ok w (preloads m) ->
   db (applyPreloads (Preload m query args w).2 (Preload m query args w).1).2 =
     db m ++ map preload_call (slice_elems w (preloads m)) ++ [EPreload query args]).
Proof.
  split_and!;
    try (unfold Joins, Where, Select, Not, Having, raw, Omit;
         destruct (initLogTrace (logTrace m) w) as [w1 trace]; done).
  - intros Heq. apply (value_not_its_own_element (VSlice TIface args) TIface).
    by f_equal.
  - intros Hok.
    destruct (configure_preloads (CPreload query args) m w Hok) as (Hok' & Hel & _).
    destruct (configure_rest (CPreload query args) m w) as [_ Hdb].
    change (configure (CPreload query args) m w) with (Preload m query args w) in *.
    rewrite applyPreloads_db by done.
    rewrite Hel, Hdb. simpl. by rewrite app_nil_r, map_app.
Qed.

Lemma Joins_passes_args_as_one_value_witness :
  slice_ok (world0 ok_result) (preloads root) /\
  db (Joins root "JOIN emails ON emails.user_id = users.id AND emails.email = ?"
        (Some [VStr "a@b.c"]) (world0 ok_result)).2 =
    [EJoins "JOIN emails ON emails.user_id = users.id AND emails.email = ?"
            (Some [VSlice TIface (Some [VStr "a@b.c"])])] /\
  db (applyPreloads (Preload root "Orders" (Some [VStr "state = ?"; VStr "paid"])
                       (world0 ok_result)).2
                    (Preload root "Orders" (Some [VStr "state = ?"; VStr "paid"])
                       (world0 ok_result)).1).2 =
    [EPreload "Orders" (Some [VStr "state = ?"; VStr "paid"])].
Proof.
  assert (H : slice_ok (world0 ok_result) (preloads root)) by (vm_compute; lia).
  split; [exact H|]. split.
  - exact (proj1 (Joins_passes_args_as_one_value root (world0 ok_result)
                    "JOIN emails ON emails.user_id = users.id AND emails.email = ?"
                    VNil (Some [VStr "a@b.c"]) None)).
  - pose proof (Joins_passes_args_as_one_value root (world0 ok_result) "Orders" VNil
                  (Some [VStr "state = ?"; VStr "paid"]) None)
      as (_ & _ & _ & _ & _ & _ & _ & _ & _ & Hp).
    exact (Hp H).
Defined.

(** * Further properties of the facade *)

(** ** [New] *)

(** [New]: [gorm.Open] either gives a connection handle or fails; on failure
    the fatal log call ends the process, so there is no facade ([None]). *)
Definition New (opened : DB + error) (w : World) : World * option Model :=
  match opened with
  | inr err =>
      (log_entry (mkEntry FatalLevel "can't connect to database" (WithError err)) w, None)
  | inl d => (w, Some (mkModel d None nil_slice))
  end.

(** ** Configuration is silent and defers preloads *)

Lemma configure_silent (c : config) (m : Model) (w : World) :
  logged (configure c m w).1 = logged w /\ issued (configure c m w).1 = issued w /\
  engine (configure c m w).1 = engine w /\ callstack (configure c m w).1 = callstack w /\
  db (configure c m w).2 = db m ++ builder_calls c.
Proof.
  destruct (configure_rest c m w) as [Hrest Hdb].
  assert (Hgoal : rest_of (configure c m w).1 = rest_of w ->
            logged (configure c m w).1 = logged w /\ issued (configure c m w).1 = issued w /\
            engine (configure c m w).1 = engine w /\
            callstack (configure c m w).1 = callstack w /\
            db (configure c m w).2 = db m ++ builder_calls c).
  { intros Hr. destruct (rest_of_outside _ _ Hr) as (? & ? & ? & ?). by split_and!. }
  destruct c; try (apply Hgoal; by destruct Hrest).
  destruct Hrest as (w1 & Hr & Hw & _).
  destruct (rest_of_outside _ _ Hr) as (Hl & Hi & He & Hc).
  destruct (append_frame (preloads m) (mkPreload column conds) w1)
    as (_ & Hl' & Hi' & He' & _ & Hc').
  rewrite Hw, Hl', Hi', He', Hc'. by split_and!.
Qed.

Definition is_preload_call (c : call) : bool :=
  match c with EPreload _ _ => true | _ => false end.

(** X1. A chain of configuration calls writes no log record and runs no
    statement, whatever the facade and the world; the handle of the facade it
    ends with is the receiver's handle followed by one builder call per
    configuration call other than [Preload], in call order, and none of these
    is a preload: [Preload] leaves the handle alone. *)
Theorem chain_is_silent (cs : list config) (m : Model) (w : World) :
  logged (chain cs m w).1 = logged w /\
  issued (chain cs m w).1 = issued w /\
  db (chain cs m w).2 = db m ++ chain_calls cs /\
  forallb (fun c => negb (is_preload_call c)) (chain_calls cs) = true /\
  length (chain_calls cs) = length (filter (fun c => added c = []) cs).
Proof.
  split_and!.
  - revert m w. induction cs as [|c cs IH]; intros m w; [done|].
    rewrite chain_cons, IH. apply configure_silent.
  - revert m w. induction cs as [|c cs IH]; intros m w; [done|].
    rewrite chain_cons, IH. apply configure_silent.
  - revert m w. induction cs as [|c cs IH]; intros m w; simpl.
    + by rewrite app_nil_r.
    + destruct (configure_silent c m w) as (_ & _ & _ & _ & Hdb).
      destruct (configure c m w) as [w1 m1]; simpl in *.
      rewrite IH, Hdb. unfold chain_calls; simpl. by rewrite <- app_assoc.
  - induction cs as [|c cs IH]; [done|].
    unfold chain_calls in *; simpl. rewrite forallb_app, IH, andb_true_r.
    by destruct c.
  - induction cs as [|c cs IH]; [done|].
    unfold chain_calls in *; simpl. rewrite length_app, IH.
    rewrite filter_cons. destruct c; simpl; try done;
      (destruct (decide _) as [Hd|Hd]; [done | by destruct Hd]).
Qed.

(** ** [applyPreloads] once is enough *)

(** X2. Applying the preload queue to a facade it was already applied to
    changes nothing: the second result is the first. *)
Theorem applyPreloads_idempotent (m : Model) (w : World) :
  slice_ok w (preloads m) ->
  applyPreloads (applyPreloads m w).2 (applyPreloads m w).1 = applyPreloads m w.
Proof.
  intros Hok. rewrite (applyPreloads_eq m w Hok); simpl.
  rewrite applyPreloads_eq by apply nil_slice_ok. simpl.
  unfold slice_elems; simpl. by rewrite app_nil_r.
Qed.

Lemma applyPreloads_idempotent_witness :
  let P := chain [CPreload "Owner" None; CPreload "Role" None] root (world0 ok_result) in
  slice_ok P.1 (preloads P.2) /\
  applyPreloads (applyPreloads P.2 P.1).2 (applyPreloads P.2 P.1).1 = applyPreloads P.2 P.1.
Proof.
  set (P := chain [CPreload "Owner" None; CPreload "Role" None] root (world0 ok_result)).
  assert (H : slice_ok P.1 (preloads P.2)) by (vm_compute; lia).
  split; [exact H | exact (applyPreloads_idempotent P.2 P.1 H)].
Defined.

(** ** Terminal calls leave the facade as it was *)

Lemma terminate_heap (op : terminal) (m : Model) (w : World) :
  maps (terminate op m w).1 = maps w /\ arrays (terminate op m w).1 = arrays w /\
  engine (terminate op m w).1 = engine w /\ callstack (terminate op m w).1 = callstack w.
Proof.
  pose proof (applyPreloads_world m w) as Hw.
  destruct op; simpl;
    unfold Pluck, First, Last, Take, Find, Scan, Create, Save, Updates, Delete, Count, exec,
      UpdateByFilter, returned;
    try (destruct (reflect_TypeOf filter) as [t|]; [|done];
         destruct (reflect_DeepEqual filter (reflect_Zero t)); [done|]);
    try (destruct (applyPreloads m w) as [w0 q]; simpl in Hw; subst w0);
    simpl; destruct (r_err _) as [e|]; simpl; try done;
    destruct (is_chain e gorm_ErrRecordNotFound); done.
Qed.

(** X3. A terminal call does not use up a facade: it writes to no trace map
    and to no backing array, so the preload queue and the trace of every
    facade, the receiver included, read afterwards as before and a sound
    slice stays sound; the directives are still queued for the next terminal
    call. This holds for every terminal call and every engine answer, also
    when the guard of [UpdateByFilter] stops the call. [Count] gives the
    engine's number when there is no error and 0 with [ErrInternal]
    otherwise. *)
Theorem terminal_call_keeps_facade (op : terminal) (m other : Model) (w : World) :
  let w1 := (terminate op m w).1 in
  maps w1 = maps w /\ arrays w1 = arrays w /\
  slice_elems w1 (preloads other) = slice_elems w (preloads other) /\
  trace_of w1 (logTrace other) = trace_of w (logTrace other) /\
  (slice_ok w (preloads other) -> slice_ok w1 (preloads other)) /\
  (Count m w).2 =
    match r_err (engine w (issued w) (mkStmt (db m) FCount)) with
    | None => (r_count (engine w (issued w) (mkStmt (db m) FCount)), None)
    | Some _ => (0%Z, Some ErrInternal)
    end.
Proof.
  intros w1.
  destruct (terminate_heap op m w) as (Hm & Ha & _). fold w1 in Hm, Ha.
  split_and!; [done | done | | | |].
  - by apply slice_elems_arrays.
  - unfold trace_of, fields_at. by rewrite Hm.
  - intros Hok. by apply (slice_ok_arrays w).
  - unfold Count, run_stmt; simpl. by destruct (r_err _).
Qed.

Lemma terminal_call_keeps_facade_witness :
  let P := chain [CWhere (VStr "a") None; CPreload "Role" None] root
                 (world0 (mkResult None 42%Z 0)) in
  slice_ok P.1 (preloads P.2) /\
  slice_ok (terminate (OpFind sample_dest None) P.2 P.1).1 (preloads P.2) /\
  slice_elems (terminate (OpFind sample_dest None) P.2 P.1).1 (preloads P.2) =
    [mkPreload "Role" None] /\
  (Count P.2 P.1).2 = (42%Z, None).
Proof.
  set (P := chain [CWhere (VStr "a") None; CPreload "Role" None] root
                  (world0 (mkResult None 42%Z 0))).
  assert (H : slice_ok P.1 (preloads P.2)) by (vm_compute; lia).
  split; [exact H|].
  destruct (terminal_call_keeps_facade (OpFind sample_dest None) P.2 P.2 P.1)
    as (_ & _ & Hel & _ & Hok & Hc).
  split; [exact (Hok H)|]. split; [exact Hel | exact Hc].
Defined.

(** ** [Commit] *)

Definition commit_stmt (m : Model) : Stmt := mkStmt (db m) FCommit.

(** X5. [Commit] runs on the handle as it is (pending preloads are not
    applied). A nil error gives nil and no record; any error gives
    [ErrInternal] and one error record that holds the error and nothing of the
    trace map. Unlike [RollBack], [Commit] has no exception for a
    transaction that is already finished: on (a wrapper of) [sql.ErrTxDone]
    [Commit] logs and fails where [RollBack] stays silent. *)
Theorem Commit_result (m : Model) (w : World) :
  issued (Commit m w).1 = issued w ++ [commit_stmt m] /\
  match r_err (engine w (issued w) (commit_stmt m)) with
  | None => (Commit m w).2 = None /\ logged (Commit m w).1 = logged w
  | Some e =>
      (Commit m w).2 = Some ErrInternal /\
      logged (Commit m w).1 =
        logged w ++ [mkEntry ErrorLevel "can't commit transaction" {[ "error" := LErr e ]}]
  end /\
  forall e,
    errors_Is (Some e) sql_ErrTxDone = true ->
    (r_err (engine w (issued w) (commit_stmt m)) = Some e ->
     (Commit m w).2 = Some ErrInternal /\
     length (logged (Commit m w).1) = S (length (logged w))) /\
    (r_err (engine w (issued w) (rollback_stmt m)) = Some e ->
     logged (RollBack m w) = logged w).
Proof.
  unfold Commit, RollBack, commit_stmt, rollback_stmt, run_stmt; simpl.
  split_and!; [by destruct (r_err _) | by destruct (r_err _) |].
  intros e Htx. split; intros ->; simpl.
  - split; [done|]. rewrite length_app. simpl. lia.
  - simpl in Htx. by rewrite Htx.
Qed.

Lemma Commit_result_witness :
  errors_Is (Some (ErrWrap "commit" sql_ErrTxDone)) sql_ErrTxDone = true /\
  (Commit root (world0 (mkResult (Some (ErrWrap "commit" sql_ErrTxDone)) 0%Z 0))).2 =
    Some ErrInternal /\
  logged (RollBack root (world0 (mkResult (Some (ErrWrap "commit" sql_ErrTxDone)) 0%Z 0))) = [].
Proof.
  assert (H : errors_Is (Some (ErrWrap "commit" sql_ErrTxDone)) sql_ErrTxDone = true)
    by reflexivity.
  split; [exact H|].
  destruct (proj2 (proj2 (Commit_result root
              (world0 (mkResult (Some (ErrWrap "commit" sql_ErrTxDone)) 0%Z 0))))
              _ H) as [Hc Hr].
  split; [exact (proj1 (Hc eq_refl)) | exact (Hr eq_refl)].
Defined.

(** ** Soundness of the heap is kept *)

(** Every allocated trace map has its companion keys next to their main keys. *)
Definition heap_paired (w : World) : Prop := forall l, paired (fields_at w l).

Lemma trace_of_paired (w : World) (t : option loc) : heap_paired w -> paired (trace_of w t).
Proof. intros Hw. destruct t as [l|]; [apply Hw | apply paired_empty]. Qed.

Lemma configure_heap_paired (c : config) (m : Model) (w : World) :
  heap_paired w -> heap_paired (configure c m w).1.
Proof.
  intros Hw l. destruct (configure_maps c m w) as [Hm _].
  assert (Hsame : maps (configure c m w).1 = maps w -> paired (fields_at (configure c m w).1 l)).
  { intros Heq. unfold fields_at. rewrite Heq. apply Hw. }
  assert (Hput : maps (configure c m w).1 =
                   <[trace_loc m w := put_all (trace_puts c (trace_of w (logTrace m)))
                                              (trace_of w (logTrace m))]> (maps w) ->
                 paired (fields_at (configure c m w).1 l)).
  { intros Heq. unfold fields_at. rewrite Heq.
    destruct (decide (trace_loc m w = l)) as [<-|Hne].
    - rewrite lookup_insert_eq. simpl. apply puts_paired. by apply trace_of_paired.
    - rewrite lookup_insert_ne by done. apply Hw. }
  destruct c; first [by apply Hput | by apply Hsame].
Qed.

(** X6. The conditions the other theorems ask of a facade hold from the start
    and are never lost. In a world without heap objects they hold for the
    facades [New] and [Begin] return. A configuration call and a terminal call
    on any facade keep them for every facade there is, the new one included:
    slice headers stay inside their backing arrays and every trace map keeps
    its companion keys next to their main keys. *)
Theorem facade_soundness_kept (c : config) (op : terminal) (m other : Model) (w : World) :
  heap_paired w -> slice_ok w (preloads m) -> slice_ok w (preloads other) ->
  (heap_paired (configure c m w).1 /\
   slice_ok (configure c m w).1 (preloads (configure c m w).2) /\
   slice_ok (configure c m w).1 (preloads other) /\
   paired (trace_of (configure c m w).1 (logTrace (configure c m w).2))) /\
  (heap_paired (terminate op m w).1 /\
   slice_ok (terminate op m w).1 (preloads other)) /\
  (slice_ok w (preloads (Begin m w).2) /\
   forall d, exists fresh, New (inl d) w = (w, Some fresh) /\ slice_ok w (preloads fresh) /\
                           logTrace fresh = None /\ db fresh = d).
Proof.
  intros Hw Hm Ho.
  destruct (configure_preloads c m w Hm) as (H1 & _ & _ & Hmono & _).
  pose proof (configure_heap_paired c m w Hw) as Hw1.
  destruct (terminate_heap op m w) as (Hmaps & Harr & _).
  split_and!; try done.
  - by apply Hmono.
  - by apply trace_of_paired.
  - intros l. unfold fields_at. rewrite Hmaps. apply Hw.
  - by apply (slice_ok_arrays w).
  - apply nil_slice_ok.
  - intros d. eexists. split_and!; [done | apply nil_slice_ok | done..].
Qed.

Lemma heap_paired_world0 (answer : Result) : heap_paired (world0 answer).
Proof. intros l. unfold fields_at. simpl. rewrite lookup_empty. apply paired_empty. Qed.

Lemma facade_soundness_kept_witness :
  heap_paired (world0 ok_result) /\ slice_ok (world0 ok_result) (preloads root) /\
  heap_paired (configure (CWhere (VStr "a") (Some [VInt 1%Z])) root (world0 ok_result)).1.
Proof.
  assert (Hw : heap_paired (world0 ok_result)) by exact (heap_paired_world0 ok_result).
  assert (H : slice_ok (world0 ok_result) (preloads root)) by (vm_compute; lia).
  split; [exact Hw|]. split; [exact H|].
  exact (proj1 (proj1 (facade_soundness_kept (CWhere (VStr "a") (Some [VInt 1%Z])) OpCount
                         root root (world0 ok_result) Hw H H))).
Defined.

(** ** [GetFrames]: bounds and edges *)

Lemma frames_loop_all (frames : list Frame) :
  forallb in_project frames = true -> frames_loop frames [] = frames.
Proof.
  induction frames as [|f frames IH]; simpl; [done|].
  intros [Hf Hrest]%andb_true_iff. unfold in_project in Hf. rewrite Hf. simpl.
  rewrite frames_loop_acc, IH by done. by destruct f.
Qed.

(** X7. [GetFrames] returns at most 99 frames and never more than the stack
    holds above its own frame. It returns nothing when it has no caller on
    the stack or when its caller's function name does not contain the
    project name, whatever lies further up. When every frame from its caller
    on is in the project, it returns them all, up to the 99th. *)
Theorem GetFrames_bounds (stack : list Frame) :
  length (GetFrames stack) <= 99 /\
  length (GetFrames stack) <= length stack - 2 /\
  (length stack <= 2 -> GetFrames stack = []) /\
  (forall f, stack !! 2 = Some f -> in_project f = false -> GetFrames stack = []) /\
  (forallb in_project (drop 2 stack) = true -> GetFrames stack = take 99 (drop 2 stack)).
Proof.
  assert (Hpre : exists rest, take 99 (drop 2 stack) = GetFrames stack ++ rest).
  { unfold GetFrames, runtime_Callers.
    destruct (take 99 (drop 2 stack)) as [|f pcs]; [by exists []|].
    change (0 <? length (f :: pcs)) with true; cbv iota.
    destruct (frames_loop_prefix (f :: pcs)) as (rest & Heq & _). by exists rest. }
  destruct Hpre as [rest Hpre].
  assert (Hlen : length (GetFrames stack) <= length (take 99 (drop 2 stack))).
  { rewrite Hpre, length_app. lia. }
  rewrite length_take, length_drop in Hlen.
  split_and!; try lia.
  - intros Hshort. apply nil_length_inv. lia.
  - intros f Hf Hout. unfold GetFrames, runtime_Callers.
    assert (Hd0 : drop 2 stack !! 0 = Some f) by (by rewrite lookup_drop).
    destruct (drop 2 stack) as [|g rest'] eqn:Hd; [done|].
    simpl in Hd0. injection Hd0 as ->. simpl.
    unfold in_project in Hout. by rewrite Hout.
  - intros Hall. unfold GetFrames, runtime_Callers.
    destruct (take 99 (drop 2 stack)) as [|f pcs] eqn:Ht; [done|].
    change (0 <? length (f :: pcs)) with true; cbv iota.
    apply frames_loop_all. rewrite <- Ht.
    apply forallb_forall. intros x Hx. apply list_elem_of_In in Hx.
    apply elem_of_take in Hx as (i & Hx & _).
    eapply forallb_forall in Hall; [done|]. apply list_elem_of_In.
    by eapply list_elem_of_lookup_2.
Qed.

Lemma GetFrames_bounds_witness :
  sample_stack !! 2 = Some (mkFrame "myProject/builder.(*Model).First" "builder/query.go" 247) /\
  length (GetFrames sample_stack) <= length sample_stack - 2 /\
  GetFrames (take 2 sample_stack) = [].
Proof.
  split; [reflexivity|]. split.
  - exact (proj1 (proj2 (GetFrames_bounds sample_stack))).
  - apply (proj1 (proj2 (proj2 (GetFrames_bounds (take 2 sample_stack))))).
    vm_compute. lia.
Defined.

(** ** The guard of [UpdateByFilter] on references and scalars *)

Lemma type_eqb_refl (t : type) : type_eqb t t = true.
Proof. by apply type_eqb_eq. Qed.

(** X8. What the zero-value guard lets through and what it stops. A non-nil
    pointer is let through even when it points to an all-zero struct, and so
    is a non-nil slice even when it is empty: the update then runs with that
    filter. The scalars [false], [0] and the empty string, the nil pointer
    and the nil slice are stopped: one error record, [ErrInternal], no
    statement. A nil interface makes the call panic in [reflect.Zero], with
    nothing logged and nothing run. *)
Theorem UpdateByFilter_guard_cases (m : Model) (values : value) (w : World) :
  slice_ok w (preloads m) ->
  (forall filter,
     (exists t v, filter = VPtr t (Some v)) \/ (exists t xs, filter = VSlice t (Some xs)) ->
     issued (UpdateByFilter m filter values w).1 =
       issued w ++ [mkStmt (preloaded m w ++ [EModel filter; EWhere filter None])
                           (FUpdates values)]) /\
  (forall filter,
     filter = VBool false \/ filter = VInt 0%Z \/ filter = VStr "" \/
     (exists t, filter = VPtr t None) \/ (exists t, filter = VSlice t None) ->
     (UpdateByFilter m filter values w).2 = Returned (Some ErrInternal) /\
     issued (UpdateByFilter m filter values w).1 = issued w /\
     length (logged (UpdateByFilter m filter values w).1) = S (length (logged w))) /\
  UpdateByFilter m VNil values w = (w, Panicked "reflect: Zero(nil)").
Proof.
  intros Hok. split_and!; [| |done].
  - intros filter Hf.
    assert (Hguard : stopped_by_guard (OpUpdateByFilter filter values) = false).
    { destruct Hf as [(t & v & ->)|(t & xs & ->)]; simpl; by rewrite andb_false_r. }
    by destruct (terminate_spec (OpUpdateByFilter filter values) m w Hok Hguard) as (H & _).
  - intros filter Hf. unfold UpdateByFilter.
    destruct Hf as [->|[->|[->|[(t & ->)|(t & ->)]]]]; simpl;
      rewrite ?type_eqb_refl; simpl; rewrite length_app; simpl; split_and!; try done; lia.
Qed.

Lemma UpdateByFilter_guard_cases_witness :
  slice_ok (world0 ok_result) (preloads root) /\
  issued (UpdateByFilter root (VPtr sample_filter_type (Some empty_filter)) (VStr "x")
            (world0 ok_result)).1 =
    [mkStmt [EModel (VPtr sample_filter_type (Some empty_filter));
             EWhere (VPtr sample_filter_type (Some empty_filter)) None]
            (FUpdates (VStr "x"))].
Proof.
  assert (H : slice_ok (world0 ok_result) (preloads root)) by (vm_compute; lia).
  split; [exact H|].
  apply (proj1 (UpdateByFilter_guard_cases root (VStr "x") (world0 ok_result) H)).
  left. by exists sample_filter_type, empty_filter.
Defined.

(** ** [Unscoped] and [Debug] hand on the receiver's trace reference *)

(** X9. [Debug] and [Unscoped] give the new facade the receiver's trace
    reference, nil included, and [Debug] writes nothing. So on a facade
    without a trace map the [unscoped] entry is written to a map that no
    facade refers to: a [Where] that follows starts a new map without it,
    whereas [Unscoped] after [Where] records it. *)
Theorem Unscoped_entry_needs_a_trace (m : Model) (w : World) (query : value) (args : goslice) :
  logTrace (Unscoped m w).2 = logTrace m /\
  logTrace (Debug m w).2 = logTrace m /\ (Debug m w).1 = w /\
  (forall l, logTrace m = Some l ->
     trace_of (Unscoped m w).1 (logTrace (Unscoped m w).2) !! "unscoped" =
       Some (LRaw (VBool true))) /\
  (logTrace m = None ->
     trace_of (Unscoped m w).1 (logTrace (Unscoped m w).2) = ∅ /\
     (let after := chain [CUnscoped; CWhere query args] m w in
      trace_of after.1 (logTrace after.2) !! "unscoped" = None) /\
     (let after := chain [CWhere query args; CUnscoped] m w in
      trace_of after.1 (logTrace after.2) !! "unscoped" = Some (LRaw (VBool true)))).
Proof.
  pose proof (configure_maps CUnscoped m w) as [_ Hl].
  pose proof (configure_trace_of CUnscoped m w) as Ht.
  change (configure CUnscoped m w) with (Unscoped m w) in *.
  split_and!; try done.
  - intros l Hsome. rewrite Ht, Hsome. simpl. apply lookup_insert_eq.
  - intros Hnil. split_and!.
    + rewrite Ht. by rewrite Hnil.
    + rewrite !chain_cons. cbn [chain fst snd].
      rewrite configure_trace_of.
      change (configure CUnscoped m w) with (Unscoped m w). rewrite Hl, Hnil.
      cbn [trace_of]. unfold trace_puts; cbv zeta.
      destruct (0 <? len args); unfold put_all; cbn [foldl fst snd];
        rewrite ?lookup_insert_ne by (intros Heq; discriminate Heq); apply lookup_empty.
    + rewrite !chain_cons. cbn [chain fst snd].
      rewrite configure_trace_of.
      destruct (configure_maps (CWhere query args) m w) as [_ Hl'].
      rewrite Hl'. simpl. apply lookup_insert_eq.
Qed.

Lemma Unscoped_entry_needs_a_trace_witness :
  logTrace root = None /\
  (let after := chain [CUnscoped; CWhere (VStr "a") None] root (world0 ok_result) in
   trace_of after.1 (logTrace after.2) !! "unscoped" = None).
Proof.
  split; [reflexivity|].
  exact (proj1 (proj2 (proj2 (proj2 (proj2 (proj2
           (Unscoped_entry_needs_a_trace root (world0 ok_result) (VStr "a") None))))
           eq_refl))).
Defined.

(** ** Numbered keys follow the order of the calls *)

(** The main trace values of the calls of one numbering method in a list of
    configuration calls, in call order; [pq] is the method's key prefix. *)
Definition main_values (pq : string) (cs : list config) : list logval :=
  omap (fun c => match indexed c with
                 | Some (p, v, _, _) => if decide (p = pq) then Some v else None
                 | None => None
                 end) cs.

(** A write under a numbered main key comes from the method of that prefix
    and goes to the index the scan found. *)
Lemma puts_main_key (c : config) (T : gmap string logval) (pq pa : string) (j : nat)
    (v : logval) :
  (pq, pa) ∈ kinds -> (pq +:+ strconv_Itoa j, v) ∈ trace_puts c T ->
  main_values pq [c] = [v] /\ j = scan_unused T pq (S (size T)) 0.
Proof.
  intros Hkind Hput.
  destruct c; unfold trace_puts in Hput; cbv zeta in Hput; repeat case_match;
    rewrite ?elem_of_cons, ?elem_of_nil in Hput;
    (destruct Hput as [Hput|[Hput|[]]] || destruct Hput as [Hput|[]] || destruct Hput);
    split_kinds Hkind; try discriminate Hput;
    injection Hput as Hk ->; same_index; done.
Qed.

(** The map reads, under the main keys of prefix [pq], the list [vs] by
    position. *)
Definition reads_in_order (pq : string) (T : gmap string logval) (vs : list logval) : Prop :=
  forall j, T !! (pq +:+ strconv_Itoa j) = vs !! j.

Lemma scan_unused_in_order (pq : string) (T : gmap string logval) (vs : list logval) :
  reads_in_order pq T vs -> scan_unused T pq (S (size T)) 0 = length vs.
Proof.
  intros HJ. destruct (scan_unused_spec T pq) as [Hnone Hbelow].
  set (i := scan_unused T pq (S (size T)) 0) in *.
  rewrite HJ in Hnone. apply lookup_ge_None in Hnone.
  destruct (decide (i = length vs)) as [|Hne]; [done|].
  assert (Hlt : length vs < i) by lia.
  destruct (Hbelow _ Hlt) as [x Hx]. rewrite HJ in Hx.
  apply lookup_lt_Some in Hx. lia.
Qed.

Lemma puts_in_order (c : config) (pq pa : string) (T : gmap string logval)
    (vs : list logval) :
  (pq, pa) ∈ kinds -> reads_in_order pq T vs ->
  reads_in_order pq (put_all (trace_puts c T) T) (vs ++ main_values pq [c]).
Proof.
  intros Hkind HJ j.
  assert (Hdec : (exists v, (pq +:+ strconv_Itoa j, v) ∈ trace_puts c T) \/
                 ~ (exists v, (pq +:+ strconv_Itoa j, v) ∈ trace_puts c T)).
  { destruct (decide (pq +:+ strconv_Itoa j ∈ (trace_puts c T).*1)) as [Hin|Hout].
    - left. apply list_elem_of_fmap in Hin as ([k v] & Hk & Hput). simpl in Hk. subst k.
      by exists v.
    - right. intros [v Hput]. apply Hout. apply list_elem_of_fmap.
      by exists (pq +:+ strconv_Itoa j, v). }
  destruct Hdec as [[v Hput]|Hno].
  - destruct (puts_main_key c T pq pa j v Hkind Hput) as [Hmv Hj].
    rewrite Hmv. rewrite (scan_unused_in_order pq T vs HJ) in Hj. subst j.
    rewrite lookup_app_r, Nat.sub_diag by lia. simpl.
    pose proof (scan_unused_in_order pq T vs HJ) as Hi.
    clear Hput.
    destruct c; try discriminate Hmv; unfold main_values in Hmv; simpl in Hmv;
      repeat case_decide; try discriminate Hmv; injection Hmv as <-; subst pq;
      unfold trace_puts; cbv zeta; rewrite Hi; repeat case_match;
      unfold put_all; cbn [foldl fst snd];
      rewrite ?lookup_insert_ne by (intros Heq; discriminate Heq);
      apply lookup_insert_eq.
  - assert (Hmv : main_values pq [c] = [] \/ exists v, main_values pq [c] = [v]).
    { unfold main_values; simpl. destruct (indexed c) as [[[[p v] ?] ?]|]; [|by left].
      case_decide; [right; by exists v | by left]. }
    rewrite put_all_lookup_ne.
    + rewrite HJ. destruct Hmv as [->|[v Hv]]; [by rewrite app_nil_r|].
      rewrite Hv. destruct (decide (j = length vs)) as [->|Hne].
      * exfalso. apply Hno. exists v.
        pose proof (scan_unused_in_order pq T vs HJ) as Hi.
        destruct c; try discriminate Hv; unfold main_values in Hv; simpl in Hv;
          repeat case_decide; try discriminate Hv; injection Hv as <-; subst pq;
          unfold trace_puts; cbv zeta; rewrite Hi; by left.
      * destruct (decide (j < length vs)).
        -- by rewrite lookup_app_l.
        -- rewrite !lookup_ge_None_2; [done | rewrite length_app; simpl; lia | lia].
    + intros k' v' Hin ->. apply Hno. by exists v'.
Qed.

Lemma configure_in_order (c : config) (m : Model) (w : World) (pq pa : string)
    (vs : list logval) :
  (pq, pa) ∈ kinds -> reads_in_order pq (trace_of w (logTrace m)) vs ->
  reads_in_order pq (trace_of (configure c m w).1 (logTrace (configure c m w).2))
                 (vs ++ main_values pq [c]).
Proof.
  intros Hkind HJ. rewrite configure_trace_of.
  pose proof (puts_in_order c pq pa _ vs Hkind HJ) as Hput.
  destruct c; try done.
  destruct (logTrace m) as [l|] eqn:Hl; [done|].
  simpl in *. unfold main_values; simpl. by rewrite app_nil_r.
Qed.

(** X10. The numbers [Where], [Joins] and [Set] put in their trace keys count
    the calls. Starting from a facade whose trace has no key of the method
    (a facade from [New] or [Begin], say), the trace at the end of a chain
    holds under [whereQuery<j>] the query of the chain's [j]-th [Where] call,
    counting from 0, and no [whereQuery] key beyond the last call; the same
    for [joinsQuery<j>] and [setName<j>], whatever other calls the chain
    holds in between. *)
Theorem numbered_keys_count_calls (cs : list config) (m : Model) (w : World)
    (pq pa : string) :
  (pq, pa) ∈ kinds ->
  (forall j, trace_of w (logTrace m) !! (pq +:+ strconv_Itoa j) = None) ->
  forall j,
    trace_of (chain cs m w).1 (logTrace (chain cs m w).2) !! (pq +:+ strconv_Itoa j) =
      main_values pq cs !! j.
Proof.
  intros Hkind Hnone.
  assert (Hgen : forall cs m w vs,
             reads_in_order pq (trace_of w (logTrace m)) vs ->
             reads_in_order pq (trace_of (chain cs m w).1 (logTrace (chain cs m w).2))
                            (vs ++ main_values pq cs)).
  { clear cs m w Hnone. induction cs as [|c cs IH]; intros m w vs HJ.
    - simpl. by rewrite app_nil_r.
    - rewrite chain_cons.
      replace (vs ++ main_values pq (c :: cs))
        with ((vs ++ main_values pq [c]) ++ main_values pq cs).
      + apply IH. by apply (configure_in_order c m w pq pa).
      + rewrite <- app_assoc. f_equal. unfold main_values; simpl.
        by destruct (match indexed c with Some _ => _ | None => _ end). }
  apply (Hgen cs m w []). intros j. by rewrite Hnone.
Qed.

Lemma numbered_keys_count_calls_witness :
  ("whereQuery", "whereArgs") ∈ kinds /\
  (let final := chain [CWhere (VStr "a") None; CLimit 3%Z; CJoins "j" None;
                       CWhere (VStr "b") (Some [VInt 1%Z])] root (world0 ok_result) in
   trace_of final.1 (logTrace final.2) !! ("whereQuery" +:+ strconv_Itoa 1) =
     Some (LPretty (VStr "b")) /\
   trace_of final.1 (logTrace final.2) !! ("whereQuery" +:+ strconv_Itoa 2) = None).
Proof.
  assert (Hk : ("whereQuery", "whereArgs") ∈ kinds) by apply list_elem_of_here.
  assert (H0 : forall j, trace_of (world0 ok_result) (logTrace root) !!
                           ("whereQuery" +:+ strconv_Itoa j) = None)
    by (intros j; apply lookup_empty).
  split; [exact Hk|]. split.
  - exact (numbered_keys_count_calls _ root (world0 ok_result) _ _ Hk H0 1).
  - exact (numbered_keys_count_calls _ root (world0 ok_result) _ _ Hk H0 2).
Defined.

(** ** Single-key methods: the last call shows *)

(** The one key a method without numbering writes its main entry under, and
    the value. ([Unscoped] is left out: its entry can get lost.) *)
Definition fixed_entry (c : config) : option (string * logval) :=
  match c with
  | CPreload column _ => Some ("preloadColumn-" +:+ column, LRaw (VStr column))
  | CIgnoreConflicts => Some ("ignoreConflicts", LRaw (VBool true))
  | CModel v => Some ("model", LPretty v)
  | CSelect query _ => Some ("selectQuery", LRaw query)
  | CTable name => Some ("tableName", LRaw (VStr name))
  | CLimit limit => Some ("limit", LRaw (VInt limit))
  | COffset offset => Some ("offset", LRaw (VInt offset))
  | COrder v => Some ("order", LPretty v)
  | COmit columns => Some ("omit", LRaw (strings_value columns))
  | CNot query _ => Some ("notQuery", LPretty query)
  | CGroup name => Some ("groupName", LRaw (VStr name))
  | CHaving query _ => Some ("havingQuery", LRaw query)
  | CRaw sql _ => Some ("rawSql", LRaw (VStr sql))
  | _ => None
  end.

(** Only the method itself writes under its key. *)
Lemma puts_fixed_key (c c' : config) (T : gmap string logval) (k : string) (v v' : logval) :
  fixed_entry c = Some (k, v) -> (k, v') ∈ trace_puts c' T ->
  fixed_entry c' = Some (k, v').
Proof.
  intros Hc Hput.
  destruct c; try discriminate Hc; injection Hc as <- <-;
    destruct c'; unfold trace_puts in Hput; cbv zeta in Hput; repeat case_match;
    rewrite ?elem_of_cons, ?elem_of_nil in Hput;
    (destruct Hput as [Hput|[Hput|[]]] || destruct Hput as [Hput|[]] || destruct Hput);
    apply pair_equal_spec in Hput as [Hk ->]; try discriminate Hk;
    simpl; by rewrite ?Hk.
Qed.

Lemma puts_fixed_first (c : config) (T : gmap string logval) (k : string) (v : logval) :
  fixed_entry c = Some (k, v) -> put_all (trace_puts c T) T !! k = Some v.
Proof.
  intros Hc.
  destruct c; try discriminate Hc; injection Hc as <- <-;
    unfold trace_puts; repeat case_match; unfold put_all; cbn [foldl fst snd];
    rewrite ?lookup_insert_ne by (intros Heq; discriminate Heq);
    apply lookup_insert_eq.
Qed.

Lemma configure_keeps_reference (c : config) (m : Model) (w : World) :
  logTrace m <> None -> logTrace (configure c m w).2 <> None.
Proof.
  intros Hsome. destruct (configure_maps c m w) as [_ Hl]. rewrite Hl. by destruct c.
Qed.

Lemma chain_keeps_fixed (c0 : config) (post : list config) (m : Model) (w : World)
    (k : string) (v0 v : logval) :
  fixed_entry c0 = Some (k, v0) ->
  logTrace m <> None ->
  trace_of w (logTrace m) !! k = Some v ->
  Forall (fun c' => forall v', fixed_entry c' <> Some (k, v')) post ->
  trace_of (chain post m w).1 (logTrace (chain post m w).2) !! k = Some v.
Proof.
  intros Hc0. revert m w. induction post as [|c post IH]; intros m w Hsome Hv Hpost; [done|].
  inversion Hpost as [|? ? Hc Hrest]; subst.
  rewrite chain_cons. apply IH; [by apply configure_keeps_reference | | done].
  rewrite configure_trace_of.
  assert (Hput : put_all (trace_puts c (trace_of w (logTrace m))) (trace_of w (logTrace m))
                   !! k = Some v).
  { rewrite put_all_lookup_ne; [done|].
    intros k' v' Hin ->. apply (Hc v'). by apply (puts_fixed_key c0 c _ k v0 v' Hc0 Hin). }
  destruct c; try done. by destruct (logTrace m).
Qed.

(** X11. For the methods that write their main trace entry under one key
    ([Select], [Table], [Limit], [Offset], [Order], [Model], [Omit], [Not],
    [Group], [Having], [IgnoreConflicts], [raw], and [Preload] per column)
    the trace shows the last call: after a chain, the entry under the key is
    the one written by the last call of the method in the chain (for
    [Preload]: the last call for that column), whatever calls of other
    methods follow it. *)
Theorem single_key_shows_last_call (pre post : list config) (c : config) (m : Model)
    (w : World) (k : string) (v : logval) :
  fixed_entry c = Some (k, v) ->
  Forall (fun c' => forall v', fixed_entry c' <> Some (k, v')) post ->
  let final := chain (pre ++ c :: post) m w in
  trace_of final.1 (logTrace final.2) !! k = Some v.
Proof.
  intros Hc Hpost final. unfold final.
  rewrite chain_app, chain_cons.
  set (before := chain pre m w).
  apply (chain_keeps_fixed c post _ _ k v v Hc); [| |done].
  - destruct (configure_maps c before.2 before.1) as [_ Hl]. rewrite Hl.
    by destruct c.
  - rewrite configure_trace_of.
    pose proof (puts_fixed_first c (trace_of before.1 (logTrace before.2)) k v Hc) as Hput.
    destruct c; try done.
Qed.

Lemma single_key_shows_last_call_witness :
  fixed_entry (CLimit 20%Z) = Some ("limit", LRaw (VInt 20%Z)) /\
  Forall (fun c' => forall v', fixed_entry c' <> Some ("limit", v'))
         [CWhere (VStr "a") None; COffset 5%Z] /\
  (let final := chain ([CLimit 10%Z; CUnscoped] ++ CLimit 20%Z ::
                       [CWhere (VStr "a") None; COffset 5%Z]) root (world0 ok_result) in
   trace_of final.1 (logTrace final.2) !! "limit" = Some (LRaw (VInt 20%Z))).
Proof.
  assert (Hc : fixed_entry (CLimit 20%Z) = Some ("limit", LRaw (VInt 20%Z))) by reflexivity.
  assert (Hp : Forall (fun c' => forall v', fixed_entry c' <> Some ("limit", v'))
                      [CWhere (VStr "a") None; COffset 5%Z]).
  { repeat constructor; intros v' Heq; discriminate Heq. }
  split; [exact Hc|]. split; [exact Hp|].
  exact (single_key_shows_last_call [CLimit 10%Z; CUnscoped] _ (CLimit 20%Z) root
           (world0 ok_result) "limit" _ Hc Hp).
Defined.

(** ** What a failure record holds *)

Definition method_name (op : terminal) : string :=
  match op with
  | OpPluck _ _ => "Pluck"
  | OpFirst _ _ => "First"
  | OpLast _ _ => "Last"
  | OpTake _ _ => "Take"
  | OpFind _ _ => "Find"
  | OpScan _ => "Scan"
  | OpCreate _ => "Create"
  | OpSave _ => "Save"
  | OpUpdates _ => "Updates"
  | OpDelete _ _ => "Delete"
  | OpCount => "Count"
  | OpExec _ _ => "exec"
  | OpUpdateByFilter _ _ => "UpdateByFilter"
  end.

(** The field names the terminal calls add to a failure record. *)
Definition log_keys : list string :=
  ["typeOfPluckingValue"; "pluckColumnName"; "trace"; "firstOut"; "firstWhere"; "lastOut";
   "lastWhere"; "takeWhereCondition"; "takeDest"; "takeConds"; "findOut"; "findWhere";
   "scanDest"; "createValue"; "saveValue"; "updateAttrs"; "deleteValue"; "deleteWhere";
   "execSql"; "execValues"; "UpdateByFilterFilter"; "UpdateByFilterValues"].

(** Every key of the map was written by some configuration call. *)
Definition from_config (T : gmap string logval) : Prop :=
  forall k, is_Some (T !! k) -> exists c T0 v, (k, v) ∈ trace_puts c T0.

Lemma config_key_not_logged (c : config) (T : gmap string logval) (k : string) (v : logval) :
  (k, v) ∈ trace_puts c T -> (k ∉ log_keys) /\ k <> "error".
Proof.
  intros Hput.
  destruct c; unfold trace_puts in Hput; cbv zeta in Hput; repeat case_match;
    rewrite ?elem_of_cons, ?elem_of_nil in Hput;
    (destruct Hput as [Hput|[Hput|[]]] || destruct Hput as [Hput|[]] || destruct Hput);
    injection Hput as -> ->;
    (split; [|intros Heq; discriminate Heq]);
    unfold log_keys; rewrite !elem_of_cons, elem_of_nil; intros Hin;
    repeat (destruct Hin as [Hin|Hin]; [discriminate Hin|]); done.
Qed.

Lemma configure_from_config (c : config) (m : Model) (w : World) :
  from_config (trace_of w (logTrace m)) ->
  from_config (trace_of (configure c m w).1 (logTrace (configure c m w).2)).
Proof.
  intros HT. rewrite configure_trace_of.
  assert (Hput : from_config (put_all (trace_puts c (trace_of w (logTrace m)))
                                      (trace_of w (logTrace m)))).
  { intros k Hk. apply put_all_is_Some in Hk as [Hk|[v Hv]]; [by apply HT|].
    by exists c, (trace_of w (logTrace m)), v. }
  destruct c; try done. destruct (logTrace m); [done|].
  intros k [x Hx]. by rewrite lookup_empty in Hx.
Qed.

Lemma chain_from_config (cs : list config) (m : Model) (w : World) :
  from_config (trace_of w (logTrace m)) ->
  from_config (trace_of (chain cs m w).1 (logTrace (chain cs m w).2)).
Proof.
  revert m w. induction cs as [|c cs IH]; intros m w HT; [done|].
  rewrite chain_cons. apply IH. by apply configure_from_config.
Qed.

Ltac in_log_keys :=
  unfold log_keys; repeat first [apply list_elem_of_here | apply list_elem_of_further].

Ltac fields_in_log_keys :=
  match goal with
  | |- forall k, is_Some (?F !! k) -> k ∈ log_keys =>
      let Hk := fresh "Hk" in
      intros ? Hk; apply (elem_of_dom (D:=gset string)) in Hk;
      rewrite ?dom_insert_L, ?dom_singleton_L in Hk;
      rewrite ?elem_of_union, ?elem_of_singleton in Hk;
      repeat (destruct Hk as [Hk|Hk]); subst; in_log_keys
  end.

(** The record a failed terminal call writes: its own fields (all in
    [log_keys], the filtered call stack under ["trace"]) over the receiver's
    trace map over the error. *)
Lemma terminate_failure_fields (op : terminal) (m : Model) (w : World) (e : error) :
  slice_ok w (preloads m) -> stopped_by_guard op = false ->
  r_err (engine w (issued w) (engine_stmt op (handle_for op m w))) = Some e ->
  checks_not_found op && is_chain e gorm_ErrRecordNotFound = false ->
  exists logFields msg,
    logged (terminate op m w).1 =
      logged w ++ [mkEntry ErrorLevel msg
                     (logFields ∪ (trace_of w (logTrace m) ∪ {[ "error" := LErr e ]}))] /\
    logFields !! "trace" = Some (LFrames (GetFrames (callstack w (method_name op)))) /\
    forall k, is_Some (logFields !! k) -> k ∈ log_keys.
Proof.
  intros Hok Hguard. unfold handle_for, preloaded.
  destruct op; simpl in *;
    unfold Pluck, First, Last, Take, Find, Scan, Create, Save, Updates, Delete, Count, exec,
      UpdateByFilter, returned;
    try (destruct (reflect_TypeOf filter) as [t|]; [|done]; rewrite Hguard);
    rewrite ?(applyPreloads_eq m w Hok); simpl; unfold db_call; rewrite <- ?app_assoc; simpl;
    intros -> Hnf; simpl; rewrite ?Hnf; simpl;
    repeat case_match; simpl;
    do 2 eexists; (split_and!; [reflexivity | | fields_in_log_keys]);
    rewrite ?lookup_insert_ne by (intros Heq; discriminate Heq);
    first [apply lookup_insert_eq | apply lookup_singleton_eq].
Qed.

(** X12. What the log shows when a terminal call fails. Take a facade whose
    trace holds only keys written by configuration calls (every facade built
    from [New] or [Begin] does), extend it by any chain, and let a terminal
    call on the result fail with an error that is not answered by
    [ErrNotFound]. The call adds exactly one record, at error severity; the
    record holds the engine's error under ["error"], the filtered call stack
    of the method under ["trace"], and every entry of the facade's trace map,
    unchanged: no field of the call hides a trace entry or the error. *)
Theorem failure_record_contents (cs : list config) (op : terminal) (m : Model) (w : World)
    (e : error) :
  slice_ok w (preloads m) ->
  from_config (trace_of w (logTrace m)) ->
  stopped_by_guard op = false ->
  let m1 := (chain cs m w).2 in
  let w1 := (chain cs m w).1 in
  r_err (engine w1 (issued w1) (engine_stmt op (handle_for op m1 w1))) = Some e ->
  checks_not_found op && is_chain e gorm_ErrRecordNotFound = false ->
  exists entry,
    logged (terminate op m1 w1).1 = logged w ++ [entry] /\
    e_level entry = ErrorLevel /\
    e_fields entry !! "error" = Some (LErr e) /\
    e_fields entry !! "trace" = Some (LFrames (GetFrames (callstack w (method_name op)))) /\
    forall k v, trace_of w1 (logTrace m1) !! k = Some v -> e_fields entry !! k = Some v.
Proof.
  intros Hok HT Hguard m1 w1 He Hnf.
  destruct (chain_preloads cs m w Hok) as (Hok1 & _ & _ & Hlog & _ & _ & Hcs).
  fold m1 w1 in Hok1, Hlog, Hcs.
  pose proof (chain_from_config cs m w HT) as HT1. fold m1 w1 in HT1.
  destruct (terminate_failure_fields op m1 w1 e Hok1 Hguard He Hnf)
    as (logFields & msg & Hentry & Htrace & Hkeys).
  rewrite Hlog, Hcs in *.
  assert (Hfree : forall k, is_Some (trace_of w1 (logTrace m1) !! k) ->
                            logFields !! k = None /\ k <> "error").
  { intros k Hk. destruct (HT1 k Hk) as (c & T0 & v & Hput).
    destruct (config_key_not_logged c T0 k v Hput) as [Hnot Hne].
    split; [|done]. destruct (logFields !! k) eqn:Hl; [|done].
    exfalso. apply Hnot, Hkeys. by rewrite Hl. }
  eexists. split_and!; [exact Hentry | done | | |]; simpl.
  - rewrite lookup_union_r.
    + rewrite lookup_union_r; [apply lookup_singleton_eq|].
      destruct (trace_of w1 (logTrace m1) !! "error") eqn:Herr; [|done].
      by destruct (Hfree "error" (mk_is_Some _ _ Herr)) as [_ Hne].
    + destruct (logFields !! "error") eqn:Hl; [|done].
      exfalso. assert (Hin : "error" ∈ log_keys) by (apply Hkeys; by rewrite Hl).
      unfold log_keys in Hin. rewrite !elem_of_cons, elem_of_nil in Hin.
      repeat (destruct Hin as [Hin|Hin]; [discriminate Hin|]). done.
  - by apply lookup_union_Some_l.
  - intros k v Hk. destruct (Hfree k (mk_is_Some _ _ Hk)) as [Hl _].
    rewrite lookup_union_r by done. by apply lookup_union_Some_l.
Qed.

Lemma from_config_empty : from_config ∅.
Proof. intros k [x Hx]. by rewrite lookup_empty in Hx. Qed.

Definition broken_result : Result := mkResult (Some (ErrOther "connection reset")) 0%Z 0.

Lemma failure_record_contents_witness :
  slice_ok (world0 broken_result) (preloads root) /\
  from_config (trace_of (world0 broken_result) (logTrace root)) /\
  exists entry,
    logged (terminate (OpFind sample_dest None)
              (chain [CLimit 3%Z] root (world0 broken_result)).2
              (chain [CLimit 3%Z] root (world0 broken_result)).1).1 = [entry] /\
    e_fields entry !! "error" = Some (LErr (ErrOther "connection reset")) /\
    e_fields entry !! "limit" = Some (LRaw (VInt 3%Z)).
Proof.
  assert (H : slice_ok (world0 broken_result) (preloads root)) by (vm_compute; lia).
  assert (HT : from_config (trace_of (world0 broken_result) (logTrace root)))
    by exact from_config_empty.
  split; [exact H|]. split; [exact HT|].
  destruct (failure_record_contents [CLimit 3%Z] (OpFind sample_dest None) root
              (world0 broken_result) (ErrOther "connection reset") H HT eq_refl eq_refl eq_refl)
    as (entry & Hlog & _ & Herr & _ & Hall).
  exists entry. split; [exact Hlog|]. split; [exact Herr|].
  apply Hall. vm_compute. reflexivity.
Defined.

(** ** Arguments entries outlive their call *)

(** The second trace entry of a single-key method, written only when the call
    has extra arguments. *)
Definition companion_entry (c : config) : option (string * logval) :=
  match c with
  | CPreload column conds =>
      if 0 <? len conds
      then Some ("preloadConditions-" +:+ column, LRaw (slice_value conds)) else None
  | CSelect _ args => if 0 <? len args then Some ("selectArgs", LPretty (slice_value args)) else None
  | CNot _ args => if 0 <? len args then Some ("notArgs", LRaw (slice_value args)) else None
  | CHaving _ args => if 0 <? len args then Some ("havingArgs", LRaw (slice_value args)) else None
  | CRaw _ values => if 0 <? len values then Some ("rawValues", LRaw (slice_value values)) else None
  | _ => None
  end.

(** X13. [Preload], [Select], [Not], [Having] and [raw] write their arguments
    entry only when the call has extra arguments, and never remove it. So
    when a call with arguments is followed by a call of the same method (for
    [Preload]: for the same column) without arguments, the trace shows the
    main entry of the second call next to the arguments of the first. *)
Theorem arguments_entry_outlives_call (pre : list config) (c1 c2 : config) (m : Model)
    (w : World) (k ka : string) (v1 v2 a : logval) :
  fixed_entry c1 = Some (k, v1) -> companion_entry c1 = Some (ka, a) ->
  fixed_entry c2 = Some (k, v2) -> companion_entry c2 = None ->
  let final := chain (pre ++ [c1; c2]) m w in
  trace_of final.1 (logTrace final.2) !! k = Some v2 /\
  trace_of final.1 (logTrace final.2) !! ka = Some a.
Proof.
  intros Hf1 Hc1 Hf2 Hc2 final. unfold final.
  rewrite chain_app, !chain_cons. cbn [chain fst snd].
  set (before := chain pre m w).
  rewrite configure_trace_of.
  destruct (configure_maps c1 before.2 before.1) as [_ Hl].
  rewrite (configure_trace_of c1).
  set (T := trace_of before.1 (logTrace before.2)).
  assert (H1 : put_all (trace_puts c1 T) T !! ka = Some a).
  { destruct c1; try discriminate Hc1; simpl in Hc1; unfold trace_puts;
      destruct (0 <? len _); try discriminate Hc1; injection Hc1 as <- <-;
      unfold put_all; cbn [foldl fst snd]; apply lookup_insert_eq. }
  assert (Hne : k <> ka).
  { destruct c1; try discriminate Hc1; simpl in Hc1, Hf1;
      destruct (0 <? len _); try discriminate Hc1;
      injection Hc1 as <- <-; injection Hf1 as <- <-; intros Heq; discriminate Heq. }
  assert (Hsome : logTrace (configure c1 before.2 before.1).2 <> None).
  { rewrite Hl. destruct c1; try discriminate Hf1; done. }
  assert (Hc1' : match c1, logTrace before.2 with
                 | CUnscoped, None => ∅
                 | _, _ => put_all (trace_puts c1 T) T
                 end = put_all (trace_puts c1 T) T).
  { destruct c1; try discriminate Hf1; done. }
  rewrite Hc1'.
  destruct (logTrace (configure c1 before.2 before.1).2) as [l|]; [|done].
  assert (Hput2 : trace_puts c2 (put_all (trace_puts c1 T) T) = [(k, v2)]).
  { destruct c2; try discriminate Hf2; simpl in Hc2, Hf2; injection Hf2 as <- <-;
      unfold trace_puts; try done; by destruct (0 <? len _). }
  assert (Hc2' : match c2, Some l with
                 | CUnscoped, None => ∅
                 | _, _ => put_all (trace_puts c2 (put_all (trace_puts c1 T) T))
                                   (put_all (trace_puts c1 T) T)
                 end = <[k := v2]> (put_all (trace_puts c1 T) T)).
  { rewrite Hput2. by destruct c2. }
  rewrite Hc2'. split; [apply lookup_insert_eq|].
  by rewrite lookup_insert_ne.
Qed.

Lemma arguments_entry_outlives_call_witness :
  fixed_entry (CPreload "Role" (Some [VStr "active = ?"; VBool true])) =
    Some ("preloadColumn-Role", LRaw (VStr "Role")) /\
  (let final := chain ([] ++ [CPreload "Role" (Some [VStr "active = ?"; VBool true]);
                              CPreload "Role" None]) root (world0 ok_result) in
   trace_of final.1 (logTrace final.2) !! "preloadConditions-Role" =
     Some (LRaw (slice_value (Some [VStr "active = ?"; VBool true]))) /\
   slice_elems final.1 (preloads final.2) =
     [mkPreload "Role" (Some [VStr "active = ?"; VBool true]); mkPreload "Role" None]).
Proof.
  split; [reflexivity|]. split.
  - exact (proj2 (arguments_entry_outlives_call []
                    (CPreload "Role" (Some [VStr "active = ?"; VBool true]))
                    (CPreload "Role" None) root (world0 ok_result)
                    "preloadColumn-Role" "preloadConditions-Role" _ _ _
                    eq_refl eq_refl eq_refl eq_refl)).
  - vm_compute. reflexivity.
Defined.

(** ** Transactions start from scratch *)


